(** * cleanlab.internal.multilabel_scorer: label quality scores for
      multi-label classification

    A shallow embedding of [cleanlab/internal/multilabel_scorer.py].

    Numbers.  numpy's [float64] scores are modelled as exact rationals
    ([Qc], canonical fractions, so that equal numbers are equal terms and
    the order is antisymmetric); rounding, signed zeros and NaN inputs are
    outside the model.  The one place where the code produces a
    non-finite number from finite input, the division [counts / N] of
    [multilabel_py], is modelled with an explicit [NaN]/[Inf].  The
    module [Binary64] repeats the arithmetic of the moving average on
    IEEE 754 doubles, to run the documented examples with rounding.

    Arrays.  A 2-dimensional [numpy.ndarray] is a record of its column
    count and its rows; its shape is [(length rows, ncols)], so that the
    shapes [(0, K)] are distinct for distinct [K], as in numpy.

    Exceptions.  A Python [raise] is the [Raise] branch of [result]; the
    f-string of the message is kept as a list of fragments, the
    interpolated values unformatted. *)

From stdpp Require Import base decidable option numbers list sorting
  strings gmap fin_maps.
From Stdlib Require Import QArith Qcanon Ascii PrimFloat.

Local Open Scope Z_scope.

(** ** Python values, exceptions and results *)

(** The values keyword arguments are bound to. *)
Inductive pyval :=
  | PNone
  | PBool (b : bool)
  | PInt (z : Z)
  | PFloat (q : Qc)
  | PStr (s : string).

(** One piece of a formatted message: literal text, or an interpolated
    [{...}] field of an f-string. *)
Inductive fragment :=
  | Lit (s : string)
  | FVal (v : pyval)
  | FType (ty : string)
  | FShape (sh : list nat).

Definition message := list fragment.

Inductive exn :=
  | ValueError (m : message)
  | TypeError (m : message)
  | AssertionError (m : message)
  | AttributeError (m : message)
  | IndexError (m : message)
  | AxisError (m : message).

Inductive result (A : Type) :=
  | Ok (a : A)
  | Raise (e : exn).
Arguments Ok {A} a.
Arguments Raise {A} e.

(** Sequencing: an exception in [r] skips the rest.  With these instances
    [x ← r; k] reads as the Python statements [x = r] followed by [k]. *)
Global Instance result_bind : MBind result := λ A B k r,
  match r with
  | Ok a => k a
  | Raise e => Raise e
  end.
Global Instance result_ret : MRet result := λ A a, Ok a.

(** [for x in xs: ... f x ...] collecting the results, stopping at the
    first exception. *)
Fixpoint for_each {A B} (f : A → result B) (xs : list A) : result (list B) :=
  match xs with
  | [] => Ok []
  | x :: xs' => y ← f x ; ys ← for_each f xs' ; Ok (y :: ys)
  end.

(** [for x in xs: state = body state x], stopping at the first exception. *)
Fixpoint for_loop {S X} (body : S → X → result S) (xs : list X) (s : S)
    : result S :=
  match xs with
  | [] => Ok s
  | x :: xs' => s' ← body s x; for_loop body xs' s'
  end.

(** [enumerate(xs)] *)
Definition enumerate {X} (xs : list X) : list (nat * X) :=
  zip (seq 0 (length xs)) xs.

(** Keyword dictionaries ([**kwargs]). *)
Abbreviation kwargs := (gmap string pyval).

(** ** Arrays *)

Record ndarray2 (A : Type) := Array2 { ncols : nat; rows : list (list A) }.
Arguments Array2 {A} ncols rows.
Arguments ncols {A} n.
Arguments rows {A} n.

Definition nrows {A} (a : ndarray2 A) : nat := length (rows a).

(** [a.shape] *)
Definition shape {A} (a : ndarray2 A) : nat * nat := (nrows a, ncols a).

(** The rows of a well-formed array all have [ncols] entries. *)
Definition wf {A} (a : ndarray2 A) : Prop :=
  Forall (λ r, length r = ncols a) (rows a).

(** [a[:, j]] *)
Definition column {A} (d : A) (j : nat) (rs : list (list A)) : list A :=
  map (λ r, nth j r d) rs.

(** [a.T] *)
Definition transpose {A} (d : A) (a : ndarray2 A) : ndarray2 A :=
  Array2 (nrows a) (map (λ j, column d j (rows a)) (seq 0 (ncols a))).

(** [a[:, idx]] with an index list (numpy's integer-array indexing). *)
Definition take_columns {A} (d : A) (idx : list nat) (a : ndarray2 A) : ndarray2 A :=
  Array2 (length idx) (map (λ r, map (λ j, nth j r d) idx) (rows a)).

(** ** Numbers *)

Local Open Scope Qc_scope.

(** The number written [n/d] in decimal in the source. *)
Definition frac (n : Z) (d : positive) : Qc := Q2Qc (n # d).

(** [np.sort] of a vector: ascending.  numpy's default sort is not
    stable, but on a total antisymmetric order every sorting algorithm
    returns the same array. *)
Definition np_sort (v : list Qc) : list Qc := merge_sort Qcle v.

(** [np.fliplr(np.sort(s, axis=1))] *)
Definition sort_rows_descending (s : ndarray2 Qc) : ndarray2 Qc :=
  Array2 (ncols s) (map (λ r, reverse (np_sort r)) (rows s)).

(** [np.fliplr(np.sort(s, axis=0))]: every column sorted on its own, then
    the columns mirrored. *)
Definition sort_columns_then_flip (s : ndarray2 Qc) : ndarray2 Qc :=
  let t := transpose 0 s in
  let sorted := Array2 (ncols t) (map np_sort (rows t)) in
  let back := transpose 0 sorted in
  Array2 (ncols s) (map (@reverse Qc) (rows back)).

(** [alpha * s_i + (1 - alpha) * s_ema] on vectors, in exact arithmetic.
    The source rounds every operation to binary64: the statements made
    about this step are those that rounding does not disturb, and the
    doubles of the documented examples are computed in [Binary64]. *)
Definition ema_step (alpha : Qc) (s_ema s_i : list Qc) : list Qc :=
  zip_with (λ x e, alpha * x + (1 - alpha) * e) s_i s_ema.

(** ** exponential_moving_average *)

(** The number a Python value stands for in arithmetic and comparisons
    ([bool] is a subclass of [int]). *)
Definition as_number (v : pyval) : option Qc :=
  match v with
  | PBool b => Some (if b then 1 else 0)
  | PInt z => Some (Qc_of_Z z)
  | PFloat q => Some q
  | PNone | PStr _ => None
  end.

(** [np.fliplr(np.sort(s, axis=axis))] on a 2-dimensional array.  numpy
    takes the axes 1 and -1 (the rows), 0 and -2 (the columns); with
    [axis=None] the sorted array is flattened and [np.fliplr] refuses it. *)
Definition fliplr_sort (s : ndarray2 Qc) (axis : pyval) : result (ndarray2 Qc) :=
  match axis with
  | PInt z =>
      if decide (z = 1 ∨ z = -1)%Z then Ok (sort_rows_descending s)
      else if decide (z = 0 ∨ z = -2)%Z then Ok (sort_columns_then_flip s)
      else Raise (AxisError [Lit "axis "; FVal axis;
                             Lit " is out of bounds for array of dimension 2"])
  | PNone => Raise (ValueError [Lit "Input must be >= 2-d."])
  | _ => Raise (TypeError [Lit "axis cannot be interpreted as an integer: "; FVal axis])
  end.

(** [0 <= alpha <= 1] *)
Definition in_unit_interval (alpha : pyval) : result bool :=
  match as_number alpha with
  | Some a => Ok (bool_decide (0 ≤ a ∧ a ≤ 1))
  | None => Raise (TypeError [Lit "'<=' not supported between instances of 'int' and ";
                              FVal alpha])
  end.

Definition exponential_moving_average
    (s : ndarray2 Qc) (alpha : pyval) (axis : pyval) : result (list Qc) :=
  let K := ncols s in
  s_sorted ← fliplr_sort s axis;
  let alpha :=
    match alpha with
    | PNone => PFloat (2 / Qc_of_Z (Z.of_nat K + 1))
    | _ => alpha
    end in
  ok ← in_unit_interval alpha;
  if negb ok then
    Raise (ValueError [Lit "alpha must be in the interval [0, 1], got "; FVal alpha])
  else
    let alpha := default 0 (as_number alpha) in
    let s_T := transpose 0 s_sorted in
    match rows s_T with
    | [] => Raise (IndexError
              [Lit "index 0 is out of bounds for axis 0 with size 0"])
    | s_ema :: s_next => Ok (fold_left (ema_step alpha) s_next s_ema)
    end.

(** ** Callables and other objects *)

(** What an aggregation method is called with: the score array and the
    keyword arguments [**kwargs]. *)
Definition reduction : Type := ndarray2 Qc → kwargs → result (list Qc).

(** [f(x, ..., **kw)] where [f] names its positional parameters [params]:
    a keyword of one of these names is a second value for it. *)
Fixpoint positional (fname : string) (params : list string) (kw : kwargs)
    : result () :=
  match params with
  | [] => Ok ()
  | param :: params' =>
      if decide (is_Some (kw !! param)) then
        Raise (TypeError [Lit fname; Lit "() got multiple values for argument ";
                          FVal (PStr param)])
      else positional fname params' kw
  end.

(** [exponential_moving_average] as a callable:
    [def exponential_moving_average(s, *, alpha=None, axis=1, **_)]. *)
Definition exponential_moving_average_method : reduction := λ s kw,
  _ ← positional "exponential_moving_average" ["s"] kw;
  exponential_moving_average s
    (default PNone (kw !! "alpha")) (default (PInt 1) (kw !! "axis")).

Definition Qc_min (x y : Qc) : Qc := if decide (x ≤ y) then x else y.

(** The minimum of a vector; numpy refuses an empty one. *)
Definition vector_min (v : list Qc) : result Qc :=
  match v with
  | [] => Raise (ValueError
            [Lit "zero-size array to reduction operation minimum which has no identity"])
  | x :: v' => Ok (fold_left Qc_min v' x)
  end.

(** [np.min(a, axis=...)] on a 2-dimensional array, as a callable.  Of the
    keywords of [np.min] only [axis] is modelled, and of its values the
    integers; anything else is reported as the [TypeError] numpy raises on
    a keyword or axis it does not understand. *)
Definition np_min : reduction := λ a kw,
  _ ← positional "min" ["a"] kw;
  if decide (dom kw ⊆ ({["axis"]} : gset string)) then
    match kw !! "axis" with
    | Some (PInt z) =>
        if decide (z = 1 ∨ z = -1)%Z then for_each vector_min (rows a)
        else if decide (z = 0 ∨ z = -2)%Z then
          for_each vector_min (rows (transpose 0 a))
        else Raise (AxisError [Lit "axis "; FVal (PInt z);
                               Lit " is out of bounds for array of dimension 2"])
    | _ => Raise (TypeError [Lit "min(): axis is not an integer"])
    end
  else Raise (TypeError [Lit "min() got an unexpected keyword argument"]).

(** The Python objects the validations of this file tell apart. *)
Inductive pyobject :=
  | Function (name : string) (f : reduction)
  | NdArray0 (x : Qc)
  | NdArray1 (v : list Qc)
  | NdArray2 (a : ndarray2 Qc)
  | NdArrayN (d0 d1 d2 : nat) (ds : list nat)
      (* an array of three or more dimensions, of shape d0, d1, d2, ds *)
  | Object (ty : string) (shape : option (list nat)).
      (* any other object, neither callable nor an array: its type, and
         its [shape] attribute if it has one *)

(** [type(o)] *)
Definition type_of (o : pyobject) : string :=
  match o with
  | Function _ _ => "function"
  | NdArray0 _ | NdArray1 _ | NdArray2 _ | NdArrayN _ _ _ _ => "numpy.ndarray"
  | Object ty _ => ty
  end.

(** [o.shape], an [AttributeError] on the objects that have none. *)
Definition shape_of (o : pyobject) : result (list nat) :=
  match o with
  | NdArray0 _ => Ok []
  | NdArray1 v => Ok [length v]
  | NdArray2 a => Ok [nrows a; ncols a]
  | NdArrayN d0 d1 d2 ds => Ok (d0 :: d1 :: d2 :: ds)
  | Object _ (Some sh) => Ok sh
  | Function _ _ | Object _ None =>
      Raise (AttributeError [FType (type_of o);
                             Lit " object has no attribute 'shape'"])
  end.

(** [callable(o)] *)
Definition callable (o : pyobject) : option reduction :=
  match o with
  | Function _ f => Some f
  | _ => None
  end.

(** ** Aggregator *)

Module Aggregator.

Record t := Build { method : reduction; kwargs : gmap string pyval }.

(** [assert callable(method), f"Expected callable method, got {type(method)}"] *)
Definition _validate_method (method : pyobject) : result reduction :=
  match callable method with
  | Some f => Ok f
  | None => Raise (AssertionError [Lit "Expected callable method, got ";
                                   FType (type_of method)])
  end.

Definition __init__ (method : pyobject) (kwargs : gmap string pyval) : result t :=
  f ← _validate_method method;
  Ok (Build f kwargs).

(** [isinstance(scores, np.ndarray) and scores.ndim == 2]; the message of
    the error reads [scores.shape], whatever [scores] is. *)
Definition _validate_scores (scores : pyobject) : result (ndarray2 Qc) :=
  match scores with
  | NdArray2 a => Ok a
  | _ =>
      sh ← shape_of scores;
      Raise (ValueError [Lit "Expected 2D array for scores, got ";
                         FType (type_of scores); Lit " with shape "; FShape sh])
  end.

Definition __call__ (self : t) (scores : pyobject) (kwargs : gmap string pyval)
    : result (list Qc) :=
  scores ← _validate_scores scores;
  let kwargs := <["axis" := PInt 1]> kwargs in
  method self scores (Aggregator.kwargs self ∪ kwargs).

End Aggregator.

(** ** The imports of the module *)

(** The three score functions of [cleanlab.rank] and the adjuster of
    [cleanlab.internal.label_quality_utils] are collaborators: each takes
    the labels of one class (a vector) and a 2-column probability array. *)
Class Imports := {
  get_self_confidence_for_each_label : list Z → ndarray2 Qc → result (list Qc);
  get_normalized_margin_for_each_label : list Z → ndarray2 Qc → result (list Qc);
  get_confidence_weighted_entropy_for_each_label :
    list Z → ndarray2 Qc → result (list Qc);
  _subtract_confident_thresholds : list Z → ndarray2 Qc → result (ndarray2 Qc);
}.

(** [row[l]] for an integer [l]: negative indices count from the end. *)
Definition getitem {A} (row : list A) (l : Z) : result A :=
  let n := Z.of_nat (length row) in
  let i := if decide (l < 0)%Z then (l + n)%Z else l in
  match (if decide (0 ≤ i)%Z then row !! Z.to_nat i else None) with
  | Some x => Ok x
  | None => Raise (IndexError [Lit "index "; FVal (PInt l);
                               Lit " is out of bounds for axis 1 with size ";
                               FVal (PInt n)])
  end.

(** Modelled from the spec: [get_self_confidence_for_each_label] of
    [cleanlab.rank] is not in this file.  The spec gives its contract (a
    label vector and a 2-column probability array to one score per
    example) and the docstring of [ClassLabelScorer.__call__] its values:
    the probability predicted for the given label, [pred_probs[i, labels[i]]]. *)
Fixpoint self_confidence (labels : list Z) (pred_probs : list (list Qc))
    : result (list Qc) :=
  match labels, pred_probs with
  | [], _ => Ok []
  | l :: labels', row :: pred_probs' =>
      x ← getitem row l;
      xs ← self_confidence labels' pred_probs';
      Ok (x :: xs)
  | _ :: _, [] =>
      Raise (IndexError [Lit "index out of bounds for axis 0"])
  end.

(** Modelled from the spec: [stack_complement] of
    [cleanlab.internal.multilabel_utils] is not in this file; the spec
    (4.4): the 2-column matrix [[1 - pred_probs[:,i], pred_probs[:,i]]]. *)
Definition stack_complement (pred_prob_slice : list Qc) : ndarray2 Qc :=
  Array2 2 (map (λ p, [1 - p; p]) pred_prob_slice).

(** Modelled from the spec: [_is_multilabel] of
    [cleanlab.internal.multilabel_utils] is not in this file; the spec
    (4.4): valid multi-label indicator format is a 2D array of 0/1
    entries. *)
Definition _is_multilabel (y : ndarray2 Z) : bool :=
  forallb (forallb (λ z, bool_decide (z = 0 ∨ z = 1)%Z)) (rows y).

(** ** ClassLabelScorer *)

Module ClassLabelScorer.

Inductive t := SELF_CONFIDENCE | NORMALIZED_MARGIN | CONFIDENCE_WEIGHTED_ENTROPY.

Global Instance t_eq_dec : EqDecision t.
Proof. solve_decision. Defined.

(** [self.name] *)
Definition name (self : t) : string :=
  match self with
  | SELF_CONFIDENCE => "SELF_CONFIDENCE"
  | NORMALIZED_MARGIN => "NORMALIZED_MARGIN"
  | CONFIDENCE_WEIGHTED_ENTROPY => "CONFIDENCE_WEIGHTED_ENTROPY"
  end.

(** [str(self)] *)
Definition str (self : t) : string := "ClassLabelScorer." +:+ name self.

Section Calls.
Context `{Imports}.

(** [self.value], the wrapped function of the variant. *)
Definition value (self : t) : list Z → ndarray2 Qc → result (list Qc) :=
  match self with
  | SELF_CONFIDENCE => get_self_confidence_for_each_label
  | NORMALIZED_MARGIN => get_normalized_margin_for_each_label
  | CONFIDENCE_WEIGHTED_ENTROPY => get_confidence_weighted_entropy_for_each_label
  end.

Definition _adjust_pred_probs (self : t) (labels : list Z)
    (pred_probs : ndarray2 Qc) (kwargs : gmap string pyval)
    : result (ndarray2 Qc) :=
  match default (PBool false) (kwargs !! "adjust_pred_probs") with
  | PBool true =>
      if decide (self = CONFIDENCE_WEIGHTED_ENTROPY) then
        Raise (ValueError [Lit "adjust_pred_probs is not currently supported for ";
                           FVal (PStr (str self)); Lit "."])
      else _subtract_confident_thresholds labels pred_probs
  | _ => Ok pred_probs
  end.

Definition __call__ (self : t) (labels : list Z) (pred_probs : ndarray2 Qc)
    (kwargs : gmap string pyval) : result (list Qc) :=
  pred_probs ← _adjust_pred_probs self labels pred_probs kwargs;
  value self labels pred_probs.
End Calls.

(** [str.upper].  A string is the UTF-8 encoding of the Python text.  On
    an ASCII character the letters a-z go to A-Z and nothing else
    changes. *)
Definition upper_char (c : ascii) : ascii :=
  let n := nat_of_ascii c in
  if bool_decide (97 ≤ n ≤ 122)%nat then ascii_of_nat (n - 32) else c.

(** The characters outside ASCII whose upper-case form is ASCII text, by
    the bytes of their encoding: dotless i (U+0131), long s (U+017F) and
    sharp s (U+00DF) in two bytes, the ligatures U+FB00 to U+FB06 in
    three. *)
Definition upper_2 (c1 c2 : ascii) : option string :=
  match N_of_ascii c1, N_of_ascii c2 with
  | 196, 177 => Some "I"
  | 197, 191 => Some "S"
  | 195, 159 => Some "SS"
  | _, _ => None
  end%N.

Definition upper_3 (c1 c2 c3 : ascii) : option string :=
  match N_of_ascii c1, N_of_ascii c2, N_of_ascii c3 with
  | 239, 172, 128 => Some "FF"
  | 239, 172, 129 => Some "FI"
  | 239, 172, 130 => Some "FL"
  | 239, 172, 131 => Some "FFI"
  | 239, 172, 132 => Some "FFL"
  | 239, 172, 133 => Some "ST"
  | 239, 172, 134 => Some "ST"
  | _, _, _ => None
  end%N.

(** Any other character outside ASCII is left as it is: Python may
    replace it, but not by ASCII text alone, and the lookup of [from_str]
    among the ASCII names cannot tell. *)
Fixpoint upper (s : string) : string :=
  match s with
  | EmptyString => EmptyString
  | String c1 s1 =>
      let simple := String (upper_char c1) (upper s1) in
      match s1 with
      | EmptyString => simple
      | String c2 s2 =>
          match upper_2 c1 c2 with
          | Some up => up +:+ upper s2
          | None =>
              match s2 with
              | EmptyString => simple
              | String c3 s3 =>
                  match upper_3 c1 c2 c3 with
                  | Some up => up +:+ upper s3
                  | None => simple
                  end
              end
          end
      end
  end.

(** [cls[...]]: the members by name; [None] is the [KeyError]. *)
Definition members : gmap string t :=
  {[ "SELF_CONFIDENCE" := SELF_CONFIDENCE;
     "NORMALIZED_MARGIN" := NORMALIZED_MARGIN;
     "CONFIDENCE_WEIGHTED_ENTROPY" := CONFIDENCE_WEIGHTED_ENTROPY ]}.

Definition from_str (method : string) : result t :=
  match members !! upper method with
  | Some scorer => Ok scorer
  | None => Raise (ValueError [Lit "Invalid method name: "; FVal (PStr method)])
  end.

End ClassLabelScorer.

(** ** MultilabelScorer *)

(** [np.zeros(shape=(n, k))] *)
Definition zeros (n k : nat) : ndarray2 Qc := Array2 k (replicate n (replicate k 0)).

(** [a[:, i] = v]: the vector is written down column [i]; a vector of one
    entry is broadcast, one of another length refused. *)
Definition set_column (i : nat) (v : list Qc) (a : ndarray2 Qc)
    : result (ndarray2 Qc) :=
  if decide (length v = nrows a) then
    Ok (Array2 (ncols a) (zip_with (λ r x, <[i:=x]> r) (rows a) v))
  else
    match v with
    | [x] => Ok (Array2 (ncols a) (map (λ r, <[i:=x]> r) (rows a)))
    | _ => Raise (ValueError [Lit "could not broadcast input array from shape ";
                              FShape [length v]; Lit " into shape ";
                              FShape [nrows a]])
    end.

Module MultilabelScorer.

Record t := Build {
  base_scorer : ClassLabelScorer.t;
  aggregator : Aggregator.t;
  strict : bool;
}.

(** The [aggregator] argument: an [Aggregator] instance or anything else. *)
Inductive aggregator_arg :=
  | AnAggregator (a : Aggregator.t)
  | NoAggregator (o : pyobject).

(** The default of the [aggregator] parameter,
    [Aggregator(exponential_moving_average, alpha=0.8)]. *)
Definition default_aggregator : Aggregator.t :=
  Aggregator.Build exponential_moving_average_method
    {[ "alpha" := PFloat (frac 8 10) ]}.

Definition __init__ (base_scorer : ClassLabelScorer.t)
    (aggregator : aggregator_arg) (strict : bool) : result t :=
  match aggregator with
  | NoAggregator o =>
      a ← Aggregator.__init__ o ∅;
      Ok (Build base_scorer a strict)
  | AnAggregator a => Ok (Build base_scorer a strict)
  end.

(** [MultilabelScorer()] *)
Definition default_instance : t :=
  Build ClassLabelScorer.SELF_CONFIDENCE default_aggregator true.

(** The labels are typed as a 2-dimensional array, so the first check of
    the source, [isinstance(labels, np.ndarray)], always passes. *)
Definition _validate_labels_and_pred_probs
    (labels : ndarray2 Z) (pred_probs : ndarray2 Qc) : result () :=
  if negb (_is_multilabel labels) then
    Raise (ValueError [Lit "Labels must be in multi-label format."])
  else if negb (bool_decide (shape labels = shape pred_probs)) then
    Raise (ValueError
      [Lit "Labels and predicted probabilities must have the same shape."])
  else Ok ().

Section Call.
Context `{Imports}.

(** The body of the loop over the classes. *)
Definition score_class (self : t) (base_scorer_kwargs : gmap string pyval)
    (scores : ndarray2 Qc) (item : nat * (list Z * list Qc))
    : result (ndarray2 Qc) :=
  let '(i, (label_i, pred_prob_i)) := item in
  let pred_prob_i_two_columns := stack_complement pred_prob_i in
  _ ← positional "__call__" ["self"; "labels"; "pred_probs"] base_scorer_kwargs;
  column_i ← ClassLabelScorer.__call__ (base_scorer self)
               label_i pred_prob_i_two_columns base_scorer_kwargs;
  set_column i column_i scores.

Definition __call__ (self : t) (labels : ndarray2 Z) (pred_probs : ndarray2 Qc)
    (base_scorer_kwargs : option (gmap string pyval))
    (aggregator_kwargs : gmap string pyval) : result (list Qc) :=
  _ ← (if strict self then _validate_labels_and_pred_probs labels pred_probs
       else Ok ());
  let scores := zeros (nrows labels) (ncols labels) in
  let base_scorer_kwargs := default ∅ base_scorer_kwargs in
  scores ← for_loop (score_class self base_scorer_kwargs)
             (enumerate (zip (rows (transpose 0%Z labels))
                             (rows (transpose 0 pred_probs))))
             scores;
  _ ← positional "__call__" ["self"; "scores"] aggregator_kwargs;
  Aggregator.__call__ (aggregator self) (NdArray2 scores) aggregator_kwargs.

End Call.

End MultilabelScorer.

(** [method(labels, pred_probs, base_scorer_kwargs=..., **aggregator_kwargs)]
    binds [self] to the scorer, so a keyword of that name is a second value
    for it.  The other parameters of [__call__] are parameters of this
    function too, and cannot be among its keywords. *)
Definition get_label_quality_scores `{Imports} (labels : ndarray2 Z)
    (pred_probs : ndarray2 Qc) (method : MultilabelScorer.t)
    (base_scorer_kwargs : option (gmap string pyval))
    (aggregator_kwargs : gmap string pyval) : result (list Qc) :=
  _ ← positional "__call__" ["self"] aggregator_kwargs;
  MultilabelScorer.__call__ method labels pred_probs
    base_scorer_kwargs aggregator_kwargs.

(** ** multilabel_py *)

(** A [float64] that need not be finite: what a division of numpy returns. *)
Inductive float64 :=
  | Finite (q : Qc)
  | Inf (negative : bool)
  | NaN.

(** [c / N] on numpy numbers: no exception on a zero divisor. *)
Definition true_divide (c : Z) (N : nat) : float64 :=
  if decide (N = 0%nat) then
    if decide (c = 0)%Z then NaN else Inf (bool_decide (c < 0)%Z)
  else Finite (Qc_of_Z c / Qc_of_Z (Z.of_nat N)).

Definition float64_add (x y : float64) : float64 :=
  match x, y with
  | Finite a, Finite b => Finite (a + b)
  | NaN, _ | _, NaN => NaN
  | Inf a, Inf b => if decide (a = b) then Inf a else NaN
  | Inf a, Finite _ | Finite _, Inf a => Inf a
  end.

(** [np.sum] of a vector of such numbers. *)
Definition float64_sum (v : list float64) : float64 :=
  fold_left float64_add v (Finite 0).

(** The order of [np.unique(..., axis=0)] on rows: lexicographic. *)
Fixpoint lex_le (r1 r2 : list Z) : bool :=
  match r1, r2 with
  | [], _ => true
  | _ :: _, [] => false
  | x :: r1', y :: r2' =>
      if decide (x < y)%Z then true
      else if decide (y < x)%Z then false
      else lex_le r1' r2'
  end.

Definition lex (r1 r2 : list Z) : Prop := Is_true (lex_le r1 r2).
Global Instance lex_dec : RelDecision lex.
Proof. intros a b. unfold lex. apply _. Defined.

(** How often the row [r] occurs among the rows [rs]. *)
Definition count_row (rs : list (list Z)) (r : list Z) : Z :=
  Z.of_nat (length (filter (r =.) rs)).

(** [np.unique(y, axis=0, return_counts=True)]: the distinct rows of [y]
    in sorted order, and the number of times each of them comes up. *)
Definition np_unique (y : ndarray2 Z) : list (list Z) * list Z :=
  let unique_labels := merge_sort lex (remove_dups (rows y)) in
  (unique_labels, count_row (rows y) <$> unique_labels).

(** [itertools.product([0, 1], repeat=K)] *)
Fixpoint product01 (K : nat) : list (list Z) :=
  match K with
  | O => [[]]
  | S K' => map (cons 0%Z) (product01 K') ++ map (cons 1%Z) (product01 K')
  end.

(** [2 ** np.arange(K)[::-1]] *)
Definition weights (K : nat) : list Z := reverse (map (λ j, 2 ^ Z.of_nat j)%Z (seq 0 K)).

(** [np.sum(row * 2 ** np.arange(K)[::-1])]: the row read as a binary
    number, first column first.  The integers are exact; numpy's hold
    these sums for every [K] up to 63, far beyond the [K] whose [2 ** K]
    configurations can be listed. *)
Definition binary_value (K : nat) (row : list Z) : Z :=
  foldr Z.add 0%Z (zip_with Z.mul row (weights K)).

(** [np.argsort]: the indices that sort the keys.  (Equal keys are kept in
    their order here; numpy's default sort does not promise this.) *)
Definition key_le (a b : Z * nat) : Prop := (a.1 ≤ b.1)%Z.
Global Instance key_le_dec : RelDecision key_le.
Proof. intros a b. unfold key_le. apply _. Defined.

Definition argsort (keys : list Z) : list nat :=
  (merge_sort key_le (zip keys (seq 0 (length keys)))).*2.

Section Prior.

(** [list(a_set)]: the elements of a Python set in its iteration order,
    which the language does not promise.  The set is given as a list
    without repetitions. *)
Variable list_of_set : list (list Z) → list (list Z).

Definition _fix_missing_class_count (K : nat) (unique_labels : list (list Z))
    (counts : list Z) : result (list Z) :=
  if decide (length unique_labels < 2 ^ K)%nat then
    let all_configurations := product01 K in
    let missing_labels :=
      list_of_set (list_difference all_configurations unique_labels) in
    match missing_labels with
    | [] =>
        (* [np.array([])] has no columns to stack under [unique_labels] *)
        Raise (ValueError [Lit "all the input array dimensions except for the concatenation axis must match exactly"])
    | _ =>
        let unique_labels := unique_labels ++ missing_labels in
        let counts := counts ++ replicate (length missing_labels) 0%Z in
        let sorted_ids := argsort (map (binary_value K) unique_labels) in
        for_each (λ i, getitem counts (Z.of_nat i)) sorted_ids
    end
  else Ok counts.

Definition multilabel_py (y : ndarray2 Z) : result (list float64) :=
  let N := nrows y in
  let K := ncols y in
  let '(unique_labels, counts) := np_unique y in
  counts ← _fix_missing_class_count K unique_labels counts;
  Ok (map (λ c, true_divide c N) counts).

End Prior.

(** The imports with the self-confidence score as modelled above, the
    other collaborators left open. *)
Definition with_self_confidence
    (normalized_margin entropy : list Z → ndarray2 Qc → result (list Qc))
    (adjuster : list Z → ndarray2 Qc → result (ndarray2 Qc)) : Imports := {|
  get_self_confidence_for_each_label labels pred_probs :=
    self_confidence labels (rows pred_probs);
  get_normalized_margin_for_each_label := normalized_margin;
  get_confidence_weighted_entropy_for_each_label := entropy;
  _subtract_confident_thresholds := adjuster;
|}.

(** ** The moving average in binary64 *)

Module Binary64.

Local Open Scope float_scope.

(** [np.sort] of a vector of doubles none of which is NaN. *)
Fixpoint insert (x : float) (v : list float) : list float :=
  match v with
  | [] => [x]
  | y :: v' => if x <=? y then x :: v else y :: insert x v'
  end.

Definition sort (v : list float) : list float := foldr insert [] v.

Definition ema_step (alpha : float) (s_ema s_i : list float) : list float :=
  zip_with (λ x e, alpha * x + (1 - alpha) * e) s_i s_ema.

(** [exponential_moving_average(s, alpha=alpha)] along axis 1; [None]
    stands for the two exceptions. *)
Definition exponential_moving_average (s : ndarray2 float) (alpha : float)
    : option (list float) :=
  let s_sorted := Array2 (ncols s) (map (λ r, reverse (sort r)) (rows s)) in
  if negb ((0 <=? alpha) && (alpha <=? 1)) then None
  else
    match rows (transpose 0 s_sorted) with
    | [] => None
    | s_ema :: s_next => Some (fold_left (ema_step alpha) s_next s_ema)
    end.

(** The per-class scores under the modelled self-confidence, the
    complement [1 - p] computed in binary64. *)
Definition class_scores (labels : ndarray2 Z) (pred_probs : ndarray2 float)
    : ndarray2 float :=
  Array2 (ncols labels)
    (zip_with (zip_with (λ (l : Z) p, if decide (l = 0)%Z then 1 - p else p))
       (rows labels) (rows pred_probs)).

(** [np.min(s, axis=1)] on rows that are not empty. *)
Definition row_min (r : list float) : float := hd 0 (sort r).

End Binary64.

(** ** Cross-validation helpers *)

(** [{tuple(label): i for i, label in enumerate(unique_labels)}]: the
    entries are written in order, a later one replacing an earlier one of
    the same key. *)
Definition label_to_index (unique_labels : list (list Z)) : gmap (list Z) nat :=
  fold_left (λ d (item : nat * list Z), <[item.2 := item.1]> d)
    (enumerate unique_labels) ∅.

(** [np.array([label_to_index[tuple(label)] for label in labels])], with
    [unique_labels = np.unique(labels, axis=0)]; [None] is the [KeyError]
    of a row that is no key of the dictionary. *)
Definition multilabel_ids (labels : ndarray2 Z) : option (list nat) :=
  let unique_labels := (np_unique labels).1 in
  let label_to_index := label_to_index unique_labels in
  mapM (λ label, label_to_index !! label) (rows labels).

Section CrossValidation.

(** The collaborators: the [split] method of the splitter [cv], and
    [cross_val_predict] of scikit-learn with [method="predict_proba"]. *)
Context {Features Classifier Splits Predictions : Type}.
Variable split : list nat → list nat → Splits.
Variable cross_val_predict :
  Classifier → Features → ndarray2 Z → Splits → Predictions.

Definition _get_split_generator (labels : ndarray2 Z) : option Splits :=
  multilabel_ids ← multilabel_ids labels;
  Some (split multilabel_ids multilabel_ids).

Definition get_cross_validated_multilabel_pred_probs
    (X : Features) (labels : ndarray2 Z) (clf : Classifier) : option Predictions :=
  split_generator ← _get_split_generator labels;
  Some (cross_val_predict clf X labels split_generator).

End CrossValidation.

(** * Vocabulary of the statements *)

(** The inputs of the documented examples. *)

Definition example_labels : ndarray2 Z := Array2 3 [[0; 1; 0]; [1; 0; 1]]%Z.
Definition example_pred_probs : ndarray2 Qc :=
  Array2 3 [[frac 1 10; frac 9 10; frac 1 10]; [frac 4 10; frac 1 10; frac 9 10]].

(** An alpha the range check lets through: none, or a number of [0, 1]. *)
Definition valid_alpha (alpha : pyval) : Prop :=
  alpha = PNone ∨ ∃ a, as_number alpha = Some a ∧ 0 ≤ a ∧ a ≤ 1.



(** [str.lower] on ASCII letters: A-Z go to a-z; the other bytes stay. *)
Definition lower_char (c : ascii) : ascii :=
  let n := nat_of_ascii c in
  if bool_decide (65 ≤ n ≤ 90)%nat then ascii_of_nat (n + 32) else c.

Fixpoint lower (s : string) : string :=
  match s with
  | EmptyString => EmptyString
  | String c s' => String (lower_char c) (lower s')
  end.



(** The algorithm in the words of the specification, on one row: sort the
    scores in descending order, start from the largest, and fold the
    others in by rank. *)
Definition sort_descending (row : list Qc) : list Qc := merge_sort (flip Qcle) row.

Definition running_average (alpha : Qc) (running_avg score_i : Qc) : Qc :=
  alpha * score_i + (1 - alpha) * running_avg.

Definition ema_of_row (alpha : Qc) (row : list Qc) : Qc :=
  match sort_descending row with
  | [] => 0
  | largest :: others => fold_left (running_average alpha) others largest
  end.

(** The conventional forgetting factor of a window of [K] scores. *)
Definition default_alpha (K : nat) : Qc := 2 / Qc_of_Z (Z.of_nat K + 1).

(** The score of one label under the modelled self-confidence: the
    probability of the label, [1 - p] for the label 0. *)
Definition label_score (l : Z) (p : Qc) : Qc := if decide (l = 0)%Z then 1 - p else p.

(** Entry [j] of the scores of one example, given its labels and
    probabilities. *)
Definition example_score (x : list Z * list Qc) (j : nat) : Qc :=
  label_score (nth j x.1 0%Z) (nth j x.2 0).

(** The array of per-class scores the loop of [MultilabelScorer.__call__]
    builds. *)
Definition class_scores (labels : ndarray2 Z) (pred_probs : ndarray2 Qc) : ndarray2 Qc :=
  Array2 (ncols labels)
    ((λ x, example_score x <$> seq 0 (ncols labels)) <$> zip (rows labels) (rows pred_probs)).

(** A binary label. *)
Definition binary (z : Z) : Prop := (z = 0 ∨ z = 1)%Z.

(** The order of the rows by their binary value. *)
Definition by_value (K : nat) (r1 r2 : list Z) : Prop :=
  (binary_value K r1 ≤ binary_value K r2)%Z.

(** The relative frequency of the configuration [r] among the rows of [y]. *)
Definition frequency (y : ndarray2 Z) (r : list Z) : Qc :=
  Qc_of_Z (count_row (rows y) r) / Qc_of_Z (Z.of_nat (nrows y)).

(** * Properties *)

(** Closed equations between computed values: evaluate, then compare the
    fractions (the proofs of canonicity inside [Qc] are irrelevant). *)
Lemma Qc_this_inj (x y : Qc) : this x = this y → x = y.
Proof. intros H. apply Qc_is_canon. by rewrite H. Qed.

Ltac evaluate :=
  vm_compute;
  repeat first
    [ reflexivity
    | apply Qc_this_inj; reflexivity
    | match goal with
      | |- Ok _ = Ok _ => apply (f_equal Ok)
      | |- _ :: _ = _ :: _ => apply (f_equal2 cons)
      | |- (_, _) = (_, _) => apply (f_equal2 pair)
      | |- Finite _ = Finite _ => apply (f_equal Finite)
      end ].

(** ** The documented scenario of the scorer *)

(** The default aggregator is what the constructor call of the source,
    [Aggregator(exponential_moving_average, alpha=0.8)], returns. *)
Lemma default_aggregator_init :
  Aggregator.__init__
    (Function "exponential_moving_average" exponential_moving_average_method)
    {[ "alpha" := PFloat (frac 8 10) ]}
  = Ok MultilabelScorer.default_aggregator.
Proof. reflexivity. Qed.

Lemma default_instance_init :
  MultilabelScorer.__init__ ClassLabelScorer.SELF_CONFIDENCE
    (MultilabelScorer.AnAggregator MultilabelScorer.default_aggregator) true
  = Ok MultilabelScorer.default_instance.
Proof. reflexivity. Qed.

(** C1.  On labels [[0,1,0],[1,0,1]] and probabilities
    [[0.1,0.9,0.1],[0.4,0.1,0.9]] the default [MultilabelScorer()]
    returns [0.9, 0.5], and the scorer built with [np.min] as its
    aggregator returns [0.9, 0.4]; whatever the other collaborators are. *)
Theorem C1_documented_scores nm cwe adj :
  let imports := with_self_confidence nm cwe adj in
  MultilabelScorer.__call__ MultilabelScorer.default_instance
    example_labels example_pred_probs None ∅
  = Ok [frac 9 10; frac 5 10]
  ∧ (scorer ← MultilabelScorer.__init__ ClassLabelScorer.SELF_CONFIDENCE
                 (MultilabelScorer.NoAggregator (Function "min" np_min)) true;
     MultilabelScorer.__call__ scorer example_labels example_pred_probs None ∅)
  = Ok [frac 9 10; frac 4 10].
Proof. split; evaluate. Qed.

(** ** The range check of alpha *)

Lemma fliplr_sort_valid_axis s (axis : Z) :
  (-2 ≤ axis ≤ 1)%Z → ∃ s', fliplr_sort s (PInt axis) = Ok s'.
Proof.
  intros Haxis. unfold fliplr_sort.
  repeat case_decide; eauto. lia.
Qed.

(** C5.  A supplied alpha below 0 or above 1 makes
    [exponential_moving_average] raise the [ValueError] of its range check,
    on every score array and along every axis the array has. *)
Theorem C5_alpha_out_of_range (s : ndarray2 Qc) (alpha : pyval) (a : Qc) (axis : Z) :
  as_number alpha = Some a →
  a < 0 ∨ 1 < a →
  (-2 ≤ axis ≤ 1)%Z →
  exponential_moving_average s alpha (PInt axis)
  = Raise (ValueError [Lit "alpha must be in the interval [0, 1], got "; FVal alpha]).
Proof.
  intros Hnum Hrange Haxis.
  destruct (fliplr_sort_valid_axis s axis Haxis) as [s' Hs'].
  unfold exponential_moving_average. rewrite Hs'. simpl.
  assert (Hsame : match alpha with
                  | PNone => PFloat (2 / Qc_of_Z (Z.of_nat (ncols s) + 1))
                  | _ => alpha
                  end = alpha) by (destruct alpha; [discriminate | done..]).
  rewrite Hsame. unfold in_unit_interval. rewrite Hnum. simpl.
  rewrite bool_decide_eq_false_2; [done |].
  intros [H0 H1]. destruct Hrange as [Hlt | Hgt].
  - by apply Qcle_not_lt in H0.
  - by apply Qcle_not_lt in H1.
Qed.

Lemma C5_alpha_out_of_range_witness :
  exponential_moving_average (Array2 2 [[frac 1 10; frac 2 10]])
    (PFloat (frac 3 2)) (PInt 1)
  = Raise (ValueError [Lit "alpha must be in the interval [0, 1], got ";
                       FVal (PFloat (frac 3 2))]).
Proof.
  apply (C5_alpha_out_of_range _ _ (frac 3 2)).
  - reflexivity.
  - right. reflexivity.
  - lia.
Defined.

(** ** One class only *)

Lemma sort_descending_singletons (v : list Qc) :
  map (λ r, reverse (np_sort r)) ((λ x, [x]) <$> v) = (λ x, [x]) <$> v.
Proof.
  change (map ?f ?l) with (f <$> l).
  rewrite <-list_fmap_compose. by apply list_fmap_ext.
Qed.

Lemma column_singletons (v : list Qc) : column 0 0 ((λ x, [x]) <$> v) = v.
Proof.
  unfold column. change (map ?f ?l) with (f <$> l).
  rewrite <-list_fmap_compose. rewrite <-(list_fmap_id v) at 2.
  by apply list_fmap_ext.
Qed.

Lemma ema_singletons (v : list Qc) (alpha : pyval) :
  valid_alpha alpha →
  exponential_moving_average (Array2 1 ((λ x, [x]) <$> v)) alpha (PInt 1) = Ok v.
Proof.
  intros Halpha. unfold exponential_moving_average, fliplr_sort.
  rewrite decide_True by (by left). simpl.
  assert (Hok : in_unit_interval
            match alpha with
            | PNone => PFloat (2 / Qc_of_Z (Z.of_nat 1 + 1))
            | _ => alpha
            end = Ok true).
  { destruct Halpha as [-> | (a & Ha & H0 & H1)].
    - reflexivity.
    - assert (Hsame : match alpha with
                      | PNone => PFloat (2 / Qc_of_Z (Z.of_nat 1 + 1))
                      | _ => alpha
                      end = alpha) by (destruct alpha; [discriminate | done..]).
      rewrite Hsame. unfold in_unit_interval. rewrite Ha.
      by rewrite bool_decide_eq_true_2. }
  rewrite Hok. simpl.
  by rewrite sort_descending_singletons, column_singletons.
Qed.

(** An array of one column is the column of its single scores. *)
Lemma single_column (s : ndarray2 Qc) :
  wf s → ncols s = 1%nat →
  s = Array2 1 ((λ x, [x]) <$> column 0 0 (rows s)).
Proof.
  destruct s as [K rs]. unfold wf. cbn [ncols rows]. intros Hwf ->. f_equal.
  induction Hwf as [| r rs Hr _ IH]; [done |].
  destruct r as [| x [| ? ?]]; try done. simpl. f_equal. exact IH.
Qed.

(** C6, as the code has it.  On an array of one column,
    [exponential_moving_average] returns the single score of every row
    unchanged, the column [s[:, 0]], for every alpha that passes the range
    check (alpha omitted, or a number of [0, 1]). *)
Theorem C6_single_class_unchanged (s : ndarray2 Qc) (alpha : pyval) :
  wf s → ncols s = 1%nat →
  valid_alpha alpha →
  exponential_moving_average s alpha (PInt 1) = Ok (column 0 0 (rows s)).
Proof.
  intros Hwf HK Halpha.
  rewrite (single_column s Hwf HK) at 1. by apply ema_singletons.
Qed.

Lemma C6_single_class_unchanged_witness :
  exponential_moving_average (Array2 1 [[frac 3 10]; [frac 7 10]])
    (PFloat (frac 1 2)) (PInt 1)
  = Ok [frac 3 10; frac 7 10].
Proof.
  apply (C6_single_class_unchanged (Array2 1 [[frac 3 10]; [frac 7 10]])
           (PFloat (frac 1 2))).
  - repeat constructor.
  - reflexivity.
  - right. exists (frac 1 2). split; [reflexivity |]. split; discriminate.
Defined.

(** C6 as stated fails: with the alpha 2 the range check raises, also on
    an array of one column, and the single score is not returned. *)
Lemma C6_counterexample :
  exponential_moving_average (Array2 1 [[frac 1 2]]) (PFloat (frac 2 1)) (PInt 1)
  = Raise (ValueError [Lit "alpha must be in the interval [0, 1], got ";
                       FVal (PFloat (frac 2 1))])
  ∧ exponential_moving_average (Array2 1 [[frac 1 2]]) (PFloat (frac 2 1)) (PInt 1)
    ≠ Ok [frac 1 2].
Proof.
  assert (H : exponential_moving_average (Array2 1 [[frac 1 2]])
                (PFloat (frac 2 1)) (PInt 1)
              = Raise (ValueError [Lit "alpha must be in the interval [0, 1], got ";
                                   FVal (PFloat (frac 2 1))])) by evaluate.
  split; [exact H | by rewrite H].
Qed.

(** ** The validations of the Aggregator *)

(** C8, as the code has it.  Constructing an [Aggregator] with a method
    that is not callable fails the assertion, with a message that gives the
    type received; calling an [Aggregator] on an object that has a shape
    but is not a 2-dimensional array raises a [ValueError] whose message
    gives the type and the shape of the object. *)
Theorem C8_aggregator_validation :
  (∀ (method : pyobject) (kwargs : gmap string pyval),
     callable method = None →
     Aggregator.__init__ method kwargs
     = Raise (AssertionError [Lit "Expected callable method, got ";
                              FType (type_of method)]))
  ∧ (∀ (self : Aggregator.t) (scores : pyobject) (sh : list nat)
       (kwargs : gmap string pyval),
       (∀ a, scores ≠ NdArray2 a) →
       shape_of scores = Ok sh →
       Aggregator.__call__ self scores kwargs
       = Raise (ValueError [Lit "Expected 2D array for scores, got ";
                            FType (type_of scores); Lit " with shape ";
                            FShape sh])).
Proof.
  split.
  - intros method kwargs Hcall.
    unfold Aggregator.__init__, Aggregator._validate_method.
    by rewrite Hcall.
  - intros self scores sh kwargs Hnot Hshape.
    unfold Aggregator.__call__, Aggregator._validate_scores.
    destruct scores; try (by rewrite Hshape).
    by destruct (Hnot a).
Qed.

Lemma C8_aggregator_validation_witness :
  Aggregator.__init__ (NdArray1 [frac 1 2]) ∅
  = Raise (AssertionError [Lit "Expected callable method, got ";
                           FType "numpy.ndarray"])
  ∧ Aggregator.__call__ MultilabelScorer.default_aggregator
      (NdArray1 [frac 1 2; frac 1 3]) ∅
    = Raise (ValueError [Lit "Expected 2D array for scores, got ";
                         FType "numpy.ndarray"; Lit " with shape "; FShape [2%nat]]).
Proof.
  split.
  - apply (proj1 C8_aggregator_validation (NdArray1 [frac 1 2]) ∅). reflexivity.
  - apply (proj2 C8_aggregator_validation MultilabelScorer.default_aggregator
             (NdArray1 [frac 1 2; frac 1 3]) [2%nat] ∅).
    + discriminate.
    + reflexivity.
Defined.

(** C8 as stated fails twice.  The method that is not callable raises an
    [AssertionError], not a [TypeError]; and scores without a [shape]
    attribute (a Python list) raise an [AttributeError] from the message of
    the intended error, not an error that reports their type. *)
Lemma C8_counterexample :
  Aggregator.__init__ (Object "int" None) ∅
  = Raise (AssertionError [Lit "Expected callable method, got "; FType "int"])
  ∧ (∀ m, Aggregator.__init__ (Object "int" None) ∅ ≠ Raise (TypeError m))
  ∧ Aggregator.__call__ MultilabelScorer.default_aggregator (Object "list" None) ∅
    = Raise (AttributeError [FType "list"; Lit " object has no attribute 'shape'"])
  ∧ (∀ m, Aggregator.__call__ MultilabelScorer.default_aggregator
            (Object "list" None) ∅ ≠ Raise (ValueError m))
  ∧ (∀ m, Aggregator.__call__ MultilabelScorer.default_aggregator
            (Object "list" None) ∅ ≠ Raise (TypeError m)).
Proof. repeat split; done. Qed.

(** ** Adjusted probabilities *)

(** C9.  With [adjust_pred_probs=True] among the keywords, the
    CONFIDENCE_WEIGHTED_ENTROPY variant raises its [ValueError], whatever
    the score functions and the adjuster are or would raise themselves, so
    before any of them runs; the other two variants replace the
    probabilities by the output of the adjuster and score those. *)
Theorem C9_adjust_pred_probs `{Imports} (labels : list Z)
    (pred_probs : ndarray2 Qc) (kwargs : gmap string pyval) :
  kwargs !! "adjust_pred_probs" = Some (PBool true) →
  ClassLabelScorer.__call__ ClassLabelScorer.CONFIDENCE_WEIGHTED_ENTROPY
    labels pred_probs kwargs
  = Raise (ValueError
      [Lit "adjust_pred_probs is not currently supported for ";
       FVal (PStr "ClassLabelScorer.CONFIDENCE_WEIGHTED_ENTROPY"); Lit "."])
  ∧ ∀ scorer, scorer ≠ ClassLabelScorer.CONFIDENCE_WEIGHTED_ENTROPY →
      ClassLabelScorer._adjust_pred_probs scorer labels pred_probs kwargs
      = _subtract_confident_thresholds labels pred_probs
      ∧ ClassLabelScorer.__call__ scorer labels pred_probs kwargs
        = (adjusted ← _subtract_confident_thresholds labels pred_probs;
           ClassLabelScorer.value scorer labels adjusted).
Proof.
  intros Hkw.
  unfold ClassLabelScorer.__call__, ClassLabelScorer._adjust_pred_probs.
  rewrite Hkw. simpl. split; [done |].
  intros scorer Hscorer. by rewrite decide_False.
Qed.

Lemma C9_adjust_pred_probs_witness :
  let imports := with_self_confidence
                   (λ _ _, Ok []) (λ _ _, Ok []) (λ _ pred_probs, Ok pred_probs) in
  ClassLabelScorer.__call__ ClassLabelScorer.CONFIDENCE_WEIGHTED_ENTROPY
    [1%Z] (Array2 2 [[frac 1 10; frac 9 10]]) {[ "adjust_pred_probs" := PBool true ]}
  = Raise (ValueError
      [Lit "adjust_pred_probs is not currently supported for ";
       FVal (PStr "ClassLabelScorer.CONFIDENCE_WEIGHTED_ENTROPY"); Lit "."]).
Proof.
  intros imports.
  apply (C9_adjust_pred_probs (H := imports) [1%Z]
           (Array2 2 [[frac 1 10; frac 9 10]])
           {[ "adjust_pred_probs" := PBool true ]}).
  reflexivity.
Defined.

(** ** Bound and call-time keywords *)

Lemma bind_ext {A B} (r : result A) (k1 k2 : A → result B) :
  (∀ a, k1 a = k2 a) → r ≫= k1 = r ≫= k2.
Proof. intros Hk. destruct r; [apply Hk | done]. Qed.

Lemma positional_ext fname params (kw1 kw2 : gmap string pyval) :
  (∀ p, p ∈ params → is_Some (kw1 !! p) ↔ is_Some (kw2 !! p)) →
  positional fname params kw1 = positional fname params kw2.
Proof.
  induction params as [| p params IH]; intros Hsame; [done |].
  simpl. destruct (decide (is_Some (kw1 !! p))) as [H1 | H1].
  - rewrite decide_True; [done |]. apply Hsame; [left | done].
  - rewrite decide_False.
    + apply IH. intros q Hq. apply Hsame. by right.
    + intros H2. apply H1, Hsame; [left | done].
Qed.

(** The default aggregator always calls the moving average with the bound
    alpha and along axis 1. *)
Lemma default_aggregator_call (a : ndarray2 Qc) (kw : gmap string pyval) :
  Aggregator.__call__ MultilabelScorer.default_aggregator (NdArray2 a) kw
  = (_ ← positional "exponential_moving_average" ["s"] kw;
     exponential_moving_average a (PFloat (frac 8 10)) (PInt 1)).
Proof.
  set (bound := {[ "alpha" := PFloat (frac 8 10) ]} : gmap string pyval).
  assert (Halpha : (bound ∪ <["axis" := PInt 1]> kw) !! "alpha"
                   = Some (PFloat (frac 8 10))).
  { apply lookup_union_Some_l. by apply lookup_singleton_eq. }
  assert (Haxis : (bound ∪ <["axis" := PInt 1]> kw) !! "axis" = Some (PInt 1)).
  { rewrite lookup_union_r by (by apply lookup_singleton_ne).
    by apply lookup_insert_eq. }
  assert (Hs : (bound ∪ <["axis" := PInt 1]> kw) !! "s" = kw !! "s").
  { rewrite lookup_union_r by (by apply lookup_singleton_ne).
    by apply lookup_insert_ne. }
  unfold Aggregator.__call__, MultilabelScorer.default_aggregator,
    exponential_moving_average_method.
  cbn [Aggregator._validate_scores Aggregator.method Aggregator.kwargs
       mbind result_bind].
  fold bound. rewrite Halpha, Haxis.
  rewrite (positional_ext _ _ _ kw); [done |].
  intros p ->%list_elem_of_singleton. by rewrite Hs.
Qed.

(** C10.  [Aggregator.__call__] passes the method the keywords
    [{**kwargs, **self.kwargs}] with [axis=1] set on the call-time side:
    a key bound at construction keeps its bound value, [axis] included,
    and otherwise the axis is 1.  The default aggregator binds alpha to
    0.8: the moving average always runs with that alpha, never with the
    default [2/(K+1)], and an alpha passed to the default
    [MultilabelScorer] at call time changes nothing. *)
Theorem C10_bound_keywords_win :
  (∀ (self : Aggregator.t) (a : ndarray2 Qc) (kw : gmap string pyval),
     Aggregator.__call__ self (NdArray2 a) kw
     = Aggregator.method self a (Aggregator.kwargs self ∪ <["axis" := PInt 1]> kw))
  ∧ (∀ (self : Aggregator.t) (kw : gmap string pyval) key v,
       Aggregator.kwargs self !! key = Some v →
       (Aggregator.kwargs self ∪ <["axis" := PInt 1]> kw) !! key = Some v)
  ∧ (∀ (self : Aggregator.t) (kw : gmap string pyval),
       Aggregator.kwargs self !! "axis" = None →
       (Aggregator.kwargs self ∪ <["axis" := PInt 1]> kw) !! "axis" = Some (PInt 1))
  ∧ (∀ (a : ndarray2 Qc) (kw : gmap string pyval),
       Aggregator.__call__ MultilabelScorer.default_aggregator (NdArray2 a) kw
       = (_ ← positional "exponential_moving_average" ["s"] kw;
          exponential_moving_average a (PFloat (frac 8 10)) (PInt 1)))
  ∧ (∀ (imports : Imports) labels pred_probs base_scorer_kwargs
       (kw : gmap string pyval) (alpha : pyval),
       MultilabelScorer.__call__ MultilabelScorer.default_instance
         labels pred_probs base_scorer_kwargs (<["alpha" := alpha]> kw)
       = MultilabelScorer.__call__ MultilabelScorer.default_instance
           labels pred_probs base_scorer_kwargs (delete "alpha" kw)).
Proof.
  split; [done |]. split; [| split; [| split]].
  - intros self kw key v Hbound. by apply lookup_union_Some_l.
  - intros self kw Hfree. rewrite lookup_union_r by done.
    apply lookup_insert_eq.
  - apply default_aggregator_call.
  - intros imports labels pred_probs bkw kw alpha.
    unfold MultilabelScorer.__call__.
    apply bind_ext; intros _. apply bind_ext; intros scores.
    rewrite (positional_ext _ _ _ (delete "alpha" kw)).
    + apply bind_ext; intros _.
      rewrite !default_aggregator_call.
      f_equal. apply positional_ext.
      intros p ->%list_elem_of_singleton.
      by rewrite lookup_insert_ne, lookup_delete_ne.
    + intros p Hp.
      assert (p ≠ "alpha")
        by (intros ->; repeat (apply elem_of_cons in Hp as [? | Hp]; [done |]);
            by apply elem_of_nil in Hp).
      by rewrite lookup_insert_ne, lookup_delete_ne.
Qed.

Lemma C10_bound_keywords_win_witness :
  (Aggregator.kwargs MultilabelScorer.default_aggregator
   ∪ <["axis" := PInt 1]> {[ "alpha" := PFloat (frac 3 10) ]}) !! "alpha"
  = Some (PFloat (frac 8 10)).
Proof.
  apply (proj1 (proj2 C10_bound_keywords_win) MultilabelScorer.default_aggregator
           {[ "alpha" := PFloat (frac 3 10) ]} "alpha" (PFloat (frac 8 10))).
  reflexivity.
Defined.

(** ** Variants by name *)












(** ** The moving average, row by row *)

Local Instance flip_Qcle_trans : Transitive (flip Qcle).
Proof. intros x y z Hxy Hyz. unfold flip in *. by etrans. Qed.

Local Instance flip_Qcle_antisymm : AntiSymm (=) (flip Qcle).
Proof. intros x y Hxy Hyx. unfold flip in *. by apply (anti_symm Qcle). Qed.

Local Instance flip_Qcle_total : Total (flip Qcle).
Proof. intros x y. unfold flip. destruct (total Qcle y x); auto. Qed.

Lemma flip_np_sort (row : list Qc) : reverse (np_sort row) = sort_descending row.
Proof.
  unfold np_sort, sort_descending.
  apply (Sorted_unique (flip Qcle)).
  - apply Sorted_reverse, Sorted_merge_sort. apply _.
  - apply Sorted_merge_sort. apply _.
  - by rewrite reverse_Permutation, !merge_sort_Permutation.
Qed.

Lemma sort_descending_length row : length (sort_descending row) = length row.
Proof. unfold sort_descending. by rewrite merge_sort_Permutation. Qed.

(** Permuted rows sort to the same row. *)
Lemma sort_descending_Permutation (r1 r2 : list Qc) :
  r1 ≡ₚ r2 → sort_descending r1 = sort_descending r2.
Proof.
  intros Hperm. unfold sort_descending.
  apply (Sorted_unique (flip Qcle)).
  - apply Sorted_merge_sort. apply _.
  - apply Sorted_merge_sort. apply _.
  - by rewrite !merge_sort_Permutation.
Qed.

(** The loop of the source runs over the columns of the sorted array, all
    rows at once; row by row it is the fold of the specification. *)
Lemma ema_step_columns alpha (k : nat) :
  ∀ (rs : list (list Qc)) (acc : list Qc),
    Forall (λ r, length r = k) rs →
    length acc = length rs →
    fold_left (ema_step alpha) (map (λ j, column 0 j rs) (seq 0 k)) acc
    = zip_with (λ r a, fold_left (running_average alpha) r a) rs acc.
Proof.
  induction k as [| k IH]; intros rs acc Hlen Hacc.
  - simpl. revert acc Hacc.
    induction Hlen as [| r rs Hr _ IHrs]; intros [| a acc] Hacc; try done.
    simpl in *. destruct r; [| done]. simpl. f_equal. apply IHrs. lia.
  - cbn [seq map fold_left]. rewrite <-fmap_S_seq.
    change (map ?f (S <$> ?l)) with (f <$> (S <$> l)).
    rewrite <-list_fmap_compose.
    assert (Hcols : (λ j, column 0 j rs) ∘ S <$> seq 0 k
                    = map (λ j, column 0 j (map (drop 1) rs)) (seq 0 k)).
    { apply list_fmap_ext. intros _ j _. unfold column. simpl.
      rewrite map_map. apply map_ext_Forall.
      eapply Forall_impl; [exact Hlen |]. intros [| x r] Hr; [done | simpl].
      by rewrite drop_0. }
    rewrite Hcols, IH.
    + clear IH Hcols. revert acc Hacc.
      induction Hlen as [| r rs Hr _ IHrs]; intros [| a acc] Hacc; try done.
      destruct r as [| x r]; [done |].
      simpl in *. rewrite drop_0. f_equal. apply IHrs. lia.
    + change (map ?f ?l) with (f <$> l). rewrite Forall_fmap.
      eapply Forall_impl; [exact Hlen |].
      intros r Hr. simpl in *. rewrite length_drop. lia.
    + unfold ema_step, column.
      rewrite length_zip_with, !length_map. lia.
Qed.

Lemma sorted_rows (s : ndarray2 Qc) :
  rows (sort_rows_descending s) = sort_descending <$> rows s.
Proof. unfold sort_rows_descending. simpl. apply list_fmap_ext. intros _ r _. apply flip_np_sort. Qed.

Lemma ema_of_sorted_row alpha (row sorted : list Qc) :
  sort_descending row = sorted →
  sorted ≠ [] →
  fold_left (running_average alpha) (drop 1 sorted) (nth 0 sorted 0)
  = ema_of_row alpha row.
Proof.
  intros Hsorted Hne. unfold ema_of_row. rewrite Hsorted.
  destruct sorted as [| largest others]; [done |]. simpl. by rewrite drop_0.
Qed.

(** The loop on the transposed sorted array, for a valid alpha. *)
Lemma ema_loop (s : ndarray2 Qc) (alpha : Qc) :
  wf s → (0 < ncols s)%nat →
  match rows (transpose 0 (sort_rows_descending s)) with
  | [] => Raise (IndexError
            [Lit "index 0 is out of bounds for axis 0 with size 0"])
  | s_ema :: s_next => Ok (fold_left (ema_step alpha) s_next s_ema)
  end = Ok (ema_of_row alpha <$> rows s).
Proof.
  intros Hwf Hcols. unfold transpose.
  cbn [rows ncols sort_rows_descending].
  change (map (λ r, reverse (np_sort r)) (rows s))
    with (rows (sort_rows_descending s)).
  rewrite sorted_rows.
  destruct (ncols s) as [| k] eqn:HK; [lia |].
  cbn [seq map]. f_equal.
  set (sorted := sort_descending <$> rows s).
  assert (Hsorted : Forall (λ r, length r = S k) sorted).
  { unfold sorted. rewrite Forall_fmap. eapply Forall_impl; [exact Hwf |].
    intros r Hr. simpl in *. rewrite sort_descending_length. congruence. }
  rewrite <-fmap_S_seq.
  change (map ?f (S <$> ?l)) with (f <$> (S <$> l)).
  rewrite <-list_fmap_compose.
  assert (Hshift : (λ j, column 0 j sorted) ∘ S <$> seq 0 k
                   = map (λ j, column 0 j (map (drop 1) sorted)) (seq 0 k)).
  { apply list_fmap_ext. intros _ j _. unfold column. simpl.
    rewrite map_map. apply map_ext_Forall.
    eapply Forall_impl; [exact Hsorted |]. intros [| x r] Hr; [done | simpl].
    by rewrite drop_0. }
  rewrite Hshift, (ema_step_columns alpha k).
  - unfold sorted, column. clear Hshift Hsorted sorted.
    induction Hwf as [| r rs Hr _ IH]; [done |].
    cbn [fmap list_fmap map zip_with]. f_equal; [| exact IH].
    apply ema_of_sorted_row; [done |].
    intros Hnil. apply (f_equal length) in Hnil.
    rewrite sort_descending_length in Hnil. simpl in Hnil. lia.
  - change (map ?f ?l) with (f <$> l). rewrite Forall_fmap.
    eapply Forall_impl; [exact Hsorted |].
    intros r Hr. simpl in *. rewrite length_drop. lia.
  - unfold column. by rewrite !length_map.
Qed.

Lemma default_alpha_valid (K : nat) :
  (0 < K)%nat → 0 ≤ default_alpha K ∧ default_alpha K ≤ 1.
Proof.
  intros HK. unfold default_alpha.
  assert (Hpos : 0 < Qc_of_Z (Z.of_nat K + 1)).
  { unfold Qclt, Qlt. simpl. lia. }
  assert (Htwo : 2 ≤ Qc_of_Z (Z.of_nat K + 1)).
  { unfold Qcle, Qle. simpl. lia. }
  assert (Hne : Qc_of_Z (Z.of_nat K + 1) ≠ 0) by (by apply Qclt_not_eq in Hpos).
  split.
  - apply (Qcmult_le_mono_pos_l _ _ _ Hpos).
    rewrite Qcmult_div_r, Qcmult_0_r by done. discriminate.
  - apply (Qcmult_le_mono_pos_l _ _ _ Hpos).
    by rewrite Qcmult_div_r, Qcmult_1_r by done.
Qed.

(** C2, as the code has it.  On an [N] by [K] score array with at least
    one column and along axis 1, [exponential_moving_average] computes for
    every row the moving average of the specification: the scores in
    descending order, the running average started at the largest and
    updated by [alpha * score_i + (1 - alpha) * running_avg] for the ranks
    2 to [K]; with alpha any number of [0, 1], or [2/(K+1)] when none is
    supplied.  The result has one entry for each row, and
    [exponential_moving_average([[0.1,0.2,0.3]], alpha=0.5)] is [0.175]. *)
Theorem C2_exponential_moving_average (s : ndarray2 Qc) :
  wf s → (0 < ncols s)%nat →
  (∀ (alpha : pyval) (a : Qc),
     as_number alpha = Some a → 0 ≤ a → a ≤ 1 →
     exponential_moving_average s alpha (PInt 1) = Ok (ema_of_row a <$> rows s))
  ∧ exponential_moving_average s PNone (PInt 1)
    = Ok (ema_of_row (default_alpha (ncols s)) <$> rows s)
  ∧ (∀ a, length (ema_of_row a <$> rows s) = nrows s)
  ∧ exponential_moving_average
      (Array2 3 [[frac 1 10; frac 2 10; frac 3 10]]) (PFloat (frac 1 2)) (PInt 1)
    = Ok [frac 175 1000].
Proof.
  intros Hwf Hcols. repeat split.
  - intros alpha a Hnum H0 H1.
    unfold exponential_moving_average. cbn [fliplr_sort].
    rewrite decide_True by (by left). cbn [mbind result_bind].
    assert (Hsame : match alpha with
                    | PNone => PFloat (2 / Qc_of_Z (Z.of_nat (ncols s) + 1))
                    | _ => alpha
                    end = alpha) by (destruct alpha; [discriminate | done..]).
    rewrite Hsame. unfold in_unit_interval. rewrite Hnum.
    rewrite bool_decide_eq_true_2 by done.
    cbn [mbind result_bind negb default from_option id].
    by apply ema_loop.
  - destruct (default_alpha_valid (ncols s) Hcols) as [H0 H1].
    unfold exponential_moving_average. cbn [fliplr_sort].
    rewrite decide_True by (by left). cbn [mbind result_bind].
    unfold in_unit_interval. cbn [as_number].
    fold (default_alpha (ncols s)).
    rewrite bool_decide_eq_true_2 by done.
    cbn [mbind result_bind negb default from_option id].
    by apply ema_loop.
  - intros a. unfold nrows. by rewrite length_fmap.
  - evaluate.
Qed.

(** C2 as stated fails on an array without columns: no row has a largest
    score, and the call raises instead of returning a vector; with alpha
    omitted already in the range check, for the default [2/(0+1)] is 2. *)
Lemma C2_counterexample :
  exponential_moving_average (Array2 0 [[]; []]) (PFloat (frac 1 2)) (PInt 1)
  = Raise (IndexError [Lit "index 0 is out of bounds for axis 0 with size 0"])
  ∧ exponential_moving_average (Array2 0 [[]; []]) PNone (PInt 1)
    = Raise (ValueError [Lit "alpha must be in the interval [0, 1], got ";
                         FVal (PFloat (frac 2 1))])
  ∧ ∀ out, exponential_moving_average (Array2 0 [[]; []]) (PFloat (frac 1 2)) (PInt 1)
           ≠ Ok out.
Proof.
  split; [reflexivity |]. split; [evaluate |]. done.
Qed.

Lemma C2_exponential_moving_average_witness :
  exponential_moving_average
    (Array2 2 [[frac 1 10; frac 3 10]; [frac 4 10; frac 2 10]]) PNone (PInt 1)
  = Ok (ema_of_row (default_alpha 2)
          <$> [[frac 1 10; frac 3 10]; [frac 4 10; frac 2 10]]).
Proof.
  apply (C2_exponential_moving_average
           (Array2 2 [[frac 1 10; frac 3 10]; [frac 4 10; frac 2 10]])).
  - repeat constructor.
  - simpl. lia.
Defined.

(** ** Column order *)

Lemma zip_with_fmap_same {X A B C} (h : A → B → C) (f : X → A) (g : X → B) (l : list X) :
  zip_with h (f <$> l) (g <$> l) = (λ x, h (f x) (g x)) <$> l.
Proof. induction l as [| x l IH]; [done |]. simpl. f_equal. exact IH. Qed.

Lemma replicate_fmap_const {X A} (l : list X) (a : A) :
  replicate (length l) a = (λ _, a) <$> l.
Proof. induction l as [| x l IH]; [done |]. simpl. f_equal. exact IH. Qed.

(** Writing the entries of a row one index after the other. *)
Lemma fill_row_from {A} (f : nat → A) (m : nat) :
  ∀ (j : nat) (pfx sfx : list A),
    length pfx = j → (m ≤ length sfx)%nat →
    fold_left (λ r i, <[i := f i]> r) (seq j m) (pfx ++ sfx)
    = pfx ++ (f <$> seq j m) ++ drop m sfx.
Proof.
  induction m as [| m IH]; intros j pfx sfx Hpfx Hsfx.
  - simpl. by rewrite drop_0.
  - destruct sfx as [| x sfx]; [simpl in Hsfx; lia |].
    cbn [seq fold_left].
    rewrite insert_app_r_alt by lia.
    replace (j - length pfx)%nat with 0%nat by lia. cbn [insert list_insert].
    rewrite (cons_middle (f j) pfx sfx), (assoc_L (++)).
    rewrite IH.
    + by rewrite <-(assoc_L (++)).
    + rewrite length_app. simpl. lia.
    + simpl in Hsfx. lia.
Qed.

Lemma fill_row {A} (f : nat → A) (K : nat) (d : A) :
  fold_left (λ r i, <[i := f i]> r) (seq 0 K) (replicate K d) = f <$> seq 0 K.
Proof.
  change (replicate K d) with ([] ++ replicate K d).
  rewrite (fill_row_from f K 0 [] (replicate K d)); [| done |].
  - rewrite drop_ge by (by rewrite length_replicate). simpl. by rewrite app_nil_r.
  - by rewrite length_replicate.
Qed.

Lemma label_score_getitem (l : Z) (p : Qc) :
  (l = 0 ∨ l = 1)%Z → getitem [1 - p; p] l = Ok (label_score l p).
Proof. by intros [-> | ->]. Qed.

(** The modelled self-confidence on the labels and stacked probabilities
    of one class, both read off the examples [xs]. *)
Lemma self_confidence_class {X} (fl : X → Z) (fp : X → Qc) (xs : list X) :
  Forall (λ x, fl x = 0 ∨ fl x = 1)%Z xs →
  self_confidence (fl <$> xs) (rows (stack_complement (fp <$> xs)))
  = Ok ((λ x, label_score (fl x) (fp x)) <$> xs).
Proof.
  unfold stack_complement. cbn [rows].
  induction 1 as [| x xs Hx _ IH]; [done |].
  cbn [fmap list_fmap map self_confidence] in *.
  rewrite label_score_getitem by done. cbn [mbind result_bind].
  by rewrite IH.
Qed.

Lemma is_multilabel_binary (y : ndarray2 Z) :
  _is_multilabel y = true ↔ Forall (Forall binary) (rows y).
Proof.
  unfold _is_multilabel. rewrite forallb_forall, Forall_forall.
  split; intros Hall r Hr.
  - apply list_elem_of_In, Hall in Hr. rewrite forallb_forall in Hr.
    apply Forall_forall. intros z Hz.
    apply list_elem_of_In, Hr in Hz. by apply bool_decide_eq_true in Hz.
  - apply list_elem_of_In, Hall in Hr. rewrite Forall_forall in Hr.
    apply forallb_forall. intros z Hz.
    apply bool_decide_eq_true. by apply Hr, list_elem_of_In.
Qed.

Lemma binary_nth (j : nat) (r : list Z) : Forall binary r → binary (nth j r 0%Z).
Proof.
  intros Hr. destruct (decide (j < length r)%nat) as [Hj | Hj].
  - rewrite Forall_forall in Hr. by apply Hr, list_elem_of_In, nth_In.
  - rewrite nth_overflow by lia. by left.
Qed.

Section ColumnOrder.

Context (normalized_margin entropy : list Z → ndarray2 Qc → result (list Qc)).
Context (adjuster : list Z → ndarray2 Qc → result (ndarray2 Qc)).

Local Instance modelled_imports : Imports :=
  with_self_confidence normalized_margin entropy adjuster.

(** One turn of the loop: class [j] of the examples [xs] is scored and
    written into column [j]. *)
Lemma score_class_step (K : nat) (xs : list (list Z * list Qc))
    (g : list Z * list Qc → list Qc) (j : nat) :
  Forall (λ x, binary (nth j x.1 0%Z)) xs →
  MultilabelScorer.score_class MultilabelScorer.default_instance ∅
    (Array2 K (g <$> xs))
    (j, ((λ x, nth j x.1 0%Z) <$> xs, (λ x, nth j x.2 0) <$> xs))
  = Ok (Array2 K ((λ x, <[j := example_score x j]> (g x)) <$> xs)).
Proof.
  intros Hbin. unfold MultilabelScorer.score_class.
  cbn [positional]. rewrite !decide_False by (rewrite lookup_empty; by inv 1).
  cbn [mbind result_bind].
  unfold ClassLabelScorer.__call__, ClassLabelScorer._adjust_pred_probs.
  rewrite lookup_empty.
  cbn [default from_option mbind result_bind MultilabelScorer.base_scorer
       MultilabelScorer.default_instance ClassLabelScorer.value
       modelled_imports with_self_confidence get_self_confidence_for_each_label].
  rewrite (self_confidence_class (λ x, nth j x.1 0%Z) (λ x, nth j x.2 0) xs Hbin).
  cbn [mbind result_bind]. unfold set_column, nrows. cbn [rows ncols].
  rewrite decide_True by (by rewrite !length_fmap).
  by rewrite zip_with_fmap_same.
Qed.

Lemma score_loop (K : nat) (xs : list (list Z * list Qc)) (js : list nat) :
  ∀ g : list Z * list Qc → list Qc,
    Forall (λ j, Forall (λ x, binary (nth j x.1 0%Z)) xs) js →
    for_loop (MultilabelScorer.score_class MultilabelScorer.default_instance ∅)
      ((λ j, (j, ((λ x, nth j x.1 0%Z) <$> xs, (λ x, nth j x.2 0) <$> xs))) <$> js)
      (Array2 K (g <$> xs))
    = Ok (Array2 K
        ((λ x, fold_left (λ r j, <[j := example_score x j]> r) js (g x)) <$> xs)).
Proof.
  induction js as [| j js IH]; intros g Hbin; [done |].
  apply Forall_cons in Hbin as [Hj Hjs].
  cbn [fmap list_fmap for_loop].
  rewrite score_class_step by done. cbn [mbind result_bind].
  by rewrite (IH (λ x, <[j := example_score x j]> (g x))).
Qed.

(** The loop over the classes builds [class_scores]. *)
Lemma class_scores_loop (labels : ndarray2 Z) (pred_probs : ndarray2 Qc) :
  shape labels = shape pred_probs →
  _is_multilabel labels = true →
  for_loop (MultilabelScorer.score_class MultilabelScorer.default_instance ∅)
    (enumerate (zip (rows (transpose 0%Z labels)) (rows (transpose 0 pred_probs))))
    (zeros (nrows labels) (ncols labels))
  = Ok (class_scores labels pred_probs).
Proof.
  intros Hshape Hbin. unfold shape, nrows in Hshape.
  injection Hshape as HN HK.
  set (xs := zip (rows labels) (rows pred_probs)).
  assert (Hl : rows labels = fst <$> xs)
    by (unfold xs; rewrite fst_zip; [done | lia]).
  assert (Hp : rows pred_probs = snd <$> xs)
    by (unfold xs; rewrite snd_zip; [done | lia]).
  assert (Hlen : length xs = length (rows labels))
    by (by rewrite Hl, length_fmap).
  assert (HL : rows (transpose 0%Z labels)
               = (λ j, (λ x, nth j x.1 0%Z) <$> xs) <$> seq 0 (ncols labels)).
  { unfold transpose, column. cbn [rows]. apply list_fmap_ext. intros _ j _.
    rewrite Hl. change (map ?f ?l) with (f <$> l).
    by rewrite <-list_fmap_compose. }
  assert (HP : rows (transpose 0 pred_probs)
               = (λ j, (λ x, nth j x.2 0) <$> xs) <$> seq 0 (ncols labels)).
  { unfold transpose, column. cbn [rows]. rewrite <-HK.
    apply list_fmap_ext. intros _ j _.
    rewrite Hp. change (map ?f ?l) with (f <$> l).
    by rewrite <-list_fmap_compose. }
  rewrite HL, HP. unfold enumerate, zeros, nrows.
  rewrite <-Hlen, replicate_fmap_const.
  change (zip ?l ?k) with (zip_with pair l k).
  rewrite (zip_with_fmap_same pair), length_fmap, length_seq.
  rewrite <-(list_fmap_id (seq 0 (ncols labels))) at 1.
  rewrite (zip_with_fmap_same pair). unfold id.
  rewrite (score_loop (ncols labels) xs (seq 0 (ncols labels))
             (λ _, replicate (ncols labels) 0)).
  - unfold class_scores. fold xs. do 2 f_equal.
    apply list_fmap_ext. intros _ x _. apply fill_row.
  - apply Forall_forall. intros j _. apply Forall_forall. intros x Hx.
    apply binary_nth. apply is_multilabel_binary in Hbin.
    rewrite Forall_forall in Hbin. apply Hbin.
    rewrite Hl. apply list_elem_of_fmap. by exists x.
Qed.

(** The default scorer on valid input: the moving average with alpha 0.8
    of the per-class scores. *)
Lemma default_call (labels : ndarray2 Z) (pred_probs : ndarray2 Qc)
    (kw : gmap string pyval) :
  shape labels = shape pred_probs →
  _is_multilabel labels = true →
  MultilabelScorer.__call__ MultilabelScorer.default_instance
    labels pred_probs None kw
  = (_ ← positional "__call__" ["self"; "scores"] kw;
     _ ← positional "exponential_moving_average" ["s"] kw;
     exponential_moving_average (class_scores labels pred_probs)
       (PFloat (frac 8 10)) (PInt 1)).
Proof.
  intros Hshape Hbin. unfold MultilabelScorer.__call__.
  cbn [MultilabelScorer.strict MultilabelScorer.default_instance].
  unfold MultilabelScorer._validate_labels_and_pred_probs.
  rewrite Hbin, Hshape, bool_decide_eq_true_2 by done.
  cbn [negb mbind result_bind default from_option id].
  rewrite class_scores_loop by done. cbn [mbind result_bind].
  apply bind_ext; intros _.
  apply default_aggregator_call.
Qed.

Lemma zip_fmap {A A' B B'} (f : A → A') (g : B → B') (l : list A) (k : list B) :
  zip (f <$> l) (g <$> k) = (λ x, (f x.1, g x.2)) <$> zip l k.
Proof.
  revert k. induction l as [| a l IH]; intros [| b k]; try done.
  simpl. f_equal. apply IH.
Qed.

Lemma nth_seq_fmap {A} (l : list A) (d : A) :
  (λ j, nth j l d) <$> seq 0 (length l) = l.
Proof.
  induction l as [| a l IH]; [done |].
  cbn [length seq fmap list_fmap]. f_equal.
  rewrite <-fmap_S_seq, <-list_fmap_compose. exact IH.
Qed.

Lemma nth_fmap_lt {A B} (f : A → B) (l : list A) (i : nat) (d : B) (d' : A) :
  (i < length l)%nat → nth i (f <$> l) d = f (nth i l d').
Proof.
  revert i. induction l as [| a l IH]; intros [| i] Hi; simpl in *; try lia.
  - done.
  - apply IH. lia.
Qed.

(** The scores of an example whose classes are taken in the order [perm]
    are the scores of the example, in that order. *)
Lemma example_score_take (perm : list nat) (x : list Z * list Qc) :
  example_score ((λ j, nth j x.1 0%Z) <$> perm, (λ j, nth j x.2 0) <$> perm)
    <$> seq 0 (length perm)
  = example_score x <$> perm.
Proof.
  rewrite <-(nth_seq_fmap perm 0%nat) at 4.
  rewrite <-list_fmap_compose.
  apply list_fmap_ext. intros i j Hj.
  apply lookup_seq in Hj as [-> Hj]. unfold example_score, compose. cbn [fst snd].
  by rewrite !(nth_fmap_lt _ perm _ _ 0%nat) by done.
Qed.

Lemma ema_sorted_ext (s1 s2 : ndarray2 Qc) (alpha : pyval) :
  ncols s1 = ncols s2 →
  sort_descending <$> rows s1 = sort_descending <$> rows s2 →
  exponential_moving_average s1 alpha (PInt 1)
  = exponential_moving_average s2 alpha (PInt 1).
Proof.
  intros Hcols Hrows. unfold exponential_moving_average. cbn [fliplr_sort].
  rewrite !decide_True by (by left). cbn [mbind result_bind].
  assert (Hsorted : sort_rows_descending s1 = sort_rows_descending s2).
  { unfold sort_rows_descending. rewrite Hcols. f_equal.
    by rewrite <-(sorted_rows s1), <-(sorted_rows s2) in Hrows. }
  by rewrite Hcols, Hsorted.
Qed.

(** C4.  On a binary label array and a probability array of the same
    shape, the default [MultilabelScorer] returns the same scores when the
    columns of both arrays are taken in the order of any permutation
    [perm] of the [K] column indices: the class scores are computed
    column by column and the moving average sorts every row. *)
Theorem C4_column_permutation (labels : ndarray2 Z) (pred_probs : ndarray2 Qc)
    (perm : list nat) (kw : gmap string pyval) :
  shape labels = shape pred_probs →
  _is_multilabel labels = true →
  perm ≡ₚ seq 0 (ncols labels) →
  MultilabelScorer.__call__ MultilabelScorer.default_instance
    (take_columns 0%Z perm labels) (take_columns 0 perm pred_probs) None kw
  = MultilabelScorer.__call__ MultilabelScorer.default_instance
      labels pred_probs None kw.
Proof.
  intros Hshape Hbin Hperm.
  assert (HK : length perm = ncols labels)
    by (by rewrite Hperm, length_seq).
  assert (Hshape' : shape (take_columns 0%Z perm labels)
                    = shape (take_columns 0 perm pred_probs)).
  { unfold shape, nrows, take_columns in *. cbn [rows ncols].
    injection Hshape as HN _. by rewrite !length_map, HN. }
  assert (Hbin' : _is_multilabel (take_columns 0%Z perm labels) = true).
  { apply is_multilabel_binary. unfold take_columns. cbn [rows].
    change (map ?f ?l) with (f <$> l). rewrite Forall_fmap.
    apply is_multilabel_binary in Hbin.
    eapply Forall_impl; [exact Hbin |]. intros r Hr. unfold compose.
    change (map ?f ?l) with (f <$> l). rewrite Forall_fmap.
    apply Forall_forall. intros j _. by apply binary_nth. }
  rewrite (default_call _ _ _ Hshape' Hbin'), (default_call _ _ _ Hshape Hbin).
  apply bind_ext; intros _. apply bind_ext; intros _.
  apply ema_sorted_ext; [exact HK |].
  unfold class_scores, take_columns. cbn [rows ncols].
  change (map ?f ?l) with (f <$> l).
  rewrite zip_fmap, <-!list_fmap_compose.
  apply list_fmap_ext. intros _ x _. unfold compose. cbn [fst snd].
  rewrite example_score_take.
  apply sort_descending_Permutation. by rewrite Hperm.
Qed.

End ColumnOrder.

Lemma C4_column_permutation_witness :
  let imports := with_self_confidence
                   (λ _ _, Ok []) (λ _ _, Ok []) (λ _ pred_probs, Ok pred_probs) in
  MultilabelScorer.__call__ MultilabelScorer.default_instance
    (take_columns 0%Z [2; 0; 1]%nat example_labels)
    (take_columns 0 [2; 0; 1]%nat example_pred_probs) None ∅
  = MultilabelScorer.__call__ MultilabelScorer.default_instance
      example_labels example_pred_probs None ∅.
Proof.
  intros imports.
  apply (C4_column_permutation (λ _ _, Ok []) (λ _ _, Ok [])
           (λ _ pred_probs, Ok pred_probs)
           example_labels example_pred_probs [2; 0; 1]%nat ∅).
  - reflexivity.
  - reflexivity.
  - exact (Permutation_cons_append [0; 1]%nat 2%nat).
Defined.

(** ** The prior of the label configurations *)

(** The lexicographic order of the rows. *)
Lemma lex_le_total (r1 r2 : list Z) : lex r1 r2 ∨ lex r2 r1.
Proof.
  unfold lex. revert r2. induction r1 as [| x r1 IH]; intros [| y r2]; simpl; auto.
  repeat case_decide; auto; lia.
Qed.

Local Instance lex_total : Total lex.
Proof. intros r1 r2. apply lex_le_total. Qed.

Local Instance lex_trans : Transitive lex.
Proof.
  unfold lex. intros r1. induction r1 as [| x r1 IH]; intros [| y r2] [| z r3];
    simpl; try done.
  repeat case_decide; try done; try lia. apply IH.
Qed.

Local Instance lex_antisymm : AntiSymm (=) lex.
Proof.
  unfold lex. intros r1. induction r1 as [| x r1 IH]; intros [| y r2]; simpl; try done.
  repeat case_decide; try done; try lia.
  intros H1 H2. assert (x = y) by lia. subst. f_equal. by apply IH.
Qed.

(** The configurations: the binary rows of length [K], each once, in
    lexicographic order, which is the order of their binary values. *)
Lemma elem_of_product01 (K : nat) (r : list Z) :
  length r = K → Forall binary r → r ∈ product01 K.
Proof.
  revert r. induction K as [| K IH]; intros [| b r] Hlen Hbin; try done.
  - by apply list_elem_of_singleton.
  - apply Forall_cons in Hbin as [[-> | ->] Hr]; simpl; apply elem_of_app.
    + left. apply (list_elem_of_fmap_2 (cons 0%Z)), IH; [simpl in Hlen; lia | done].
    + right. apply (list_elem_of_fmap_2 (cons 1%Z)), IH; [simpl in Hlen; lia | done].
Qed.

Lemma product01_length (K : nat) : length (product01 K) = (2 ^ K)%nat.
Proof.
  induction K as [| K IH]; [done |].
  cbn [product01]. rewrite length_app, !length_map, IH. simpl. lia.
Qed.

Lemma product01_sorted (K : nat) : StronglySorted lex (product01 K).
Proof.
  induction K as [| K IH]; [repeat constructor |].
  cbn [product01]. apply StronglySorted_app_2.
  - intros r1 r2 [a [-> _]]%list_elem_of_fmap [b [-> _]]%list_elem_of_fmap.
    done.
  - apply (StronglySorted_fmap _ lex lex); [| done].
    intros a b Hab. exact Hab.
  - apply (StronglySorted_fmap _ lex lex); [| done].
    intros a b Hab. exact Hab.
Qed.

Lemma weights_S (K : nat) : weights (S K) = (2 ^ Z.of_nat K)%Z :: weights K.
Proof.
  unfold weights. rewrite seq_S, map_app. simpl.
  change (map ?f ?l) with (f <$> l). by rewrite reverse_snoc.
Qed.

Lemma binary_value_cons (K : nat) (b : Z) (r : list Z) :
  binary_value (S K) (b :: r) = (b * 2 ^ Z.of_nat K + binary_value K r)%Z.
Proof. unfold binary_value. by rewrite weights_S. Qed.

(** The configuration at index [i] has the binary value [i]. *)
Lemma binary_value_product01 (K : nat) :
  binary_value K <$> product01 K = Z.of_nat <$> seq 0 (2 ^ K).
Proof.
  induction K as [| K IH]; [done |].
  cbn [product01]. rewrite fmap_app.
  change (map ?f ?l) with (f <$> l). rewrite <-!list_fmap_compose.
  replace (2 ^ S K)%nat with (2 ^ K + 2 ^ K)%nat by (simpl; lia).
  rewrite seq_app, fmap_app. f_equal.
  - rewrite <-IH. apply list_fmap_ext. intros _ r _. unfold compose.
    rewrite binary_value_cons. lia.
  - replace (seq (0 + 2 ^ K) (2 ^ K)) with (Nat.add (2 ^ K) <$> seq 0 (2 ^ K))
      by (rewrite fmap_add_seq; f_equal; lia).
    rewrite <-list_fmap_compose.
    rewrite (list_fmap_ext (Z.of_nat ∘ Nat.add (2 ^ K))
               ((λ z, 2 ^ Z.of_nat K + z)%Z ∘ Z.of_nat) (seq 0 (2 ^ K))).
    + rewrite (list_fmap_compose Z.of_nat), <-IH, <-list_fmap_compose.
      apply list_fmap_ext. intros _ r _. unfold compose.
      rewrite binary_value_cons. lia.
    + intros _ n _. unfold compose. rewrite Nat2Z.inj_add, Nat2Z.inj_pow. done.
Qed.

Lemma product01_NoDup (K : nat) : NoDup (product01 K).
Proof.
  apply (NoDup_fmap_1 (binary_value K)). rewrite binary_value_product01.
  apply NoDup_fmap_2; [apply _ | apply NoDup_seq].
Qed.

(** Distinct configurations have distinct binary values. *)
Lemma binary_value_inj (K : nat) (r1 r2 : list Z) :
  r1 ∈ product01 K → r2 ∈ product01 K →
  binary_value K r1 = binary_value K r2 → r1 = r2.
Proof.
  assert (Hnodup : NoDup (binary_value K <$> product01 K)).
  { rewrite binary_value_product01.
    apply NoDup_fmap_2; [apply _ | apply NoDup_seq]. }
  revert Hnodup. generalize (product01 K) as l.
  induction l as [| a l IH]; intros Hnodup H1 H2 Heq; [by apply elem_of_nil in H1 |].
  cbn [fmap list_fmap] in Hnodup. apply NoDup_cons in Hnodup as [Ha Hl].
  apply elem_of_cons in H1 as [-> | H1]; apply elem_of_cons in H2 as [-> | H2].
  - done.
  - destruct Ha. rewrite Heq. by apply list_elem_of_fmap_2.
  - destruct Ha. rewrite <-Heq. by apply list_elem_of_fmap_2.
  - by apply IH.
Qed.

(** [argsort] returns a permutation of the indices, along which the keys
    ascend. *)
Local Instance key_le_total : Total key_le.
Proof. intros a b. unfold key_le. lia. Qed.

Lemma argsort_Permutation (keys : list Z) : argsort keys ≡ₚ seq 0 (length keys).
Proof.
  unfold argsort. rewrite merge_sort_Permutation.
  by rewrite snd_zip by (by rewrite length_seq).
Qed.

Lemma argsort_sorted (keys : list Z) :
  Sorted Z.le ((λ i, nth i keys 0%Z) <$> argsort keys).
Proof.
  unfold argsort.
  set (pairs := zip keys (seq 0 (length keys))).
  assert (Hpairs : Forall (λ p : Z * nat, nth p.2 keys 0%Z = p.1) pairs).
  { unfold pairs.
    assert (Hgen : ∀ (pre ks : list Z),
              Forall (λ p : Z * nat, nth p.2 (pre ++ ks) 0%Z = p.1)
                (zip ks (seq (length pre) (length ks)))).
    { intros pre ks. revert pre. induction ks as [| k ks IH]; intros pre; [constructor |].
      cbn [length seq zip zip_with]. constructor.
      - cbn [fst snd]. by rewrite app_nth2, Nat.sub_diag by lia.
      - specialize (IH (pre ++ [k])).
        rewrite <-(assoc_L (++)), length_app in IH. simpl in IH.
        by rewrite Nat.add_1_r in IH. }
    exact (Hgen [] keys). }
  assert (Hsorted : Forall (λ p : Z * nat, nth p.2 keys 0%Z = p.1)
                      (merge_sort key_le pairs)).
  { by rewrite merge_sort_Permutation. }
  rewrite <-list_fmap_compose.
  rewrite (list_fmap_ext ((λ i, nth i keys 0%Z) ∘ snd) fst (merge_sort key_le pairs)).
  - apply (Sorted_fmap _ key_le); [done |]. apply Sorted_merge_sort. apply _.
  - intros i p Hp. rewrite Forall_forall in Hsorted.
    apply Hsorted. by eapply list_elem_of_lookup_2.
Qed.

Lemma seq_sorted (j n : nat) : Sorted Z.le (Z.of_nat <$> seq j n).
Proof.
  revert j. induction n as [| n IH]; intros j; [constructor |].
  cbn [seq fmap list_fmap]. constructor; [apply IH |].
  destruct n; constructor. lia.
Qed.

Lemma Sorted_fmap_inv {A B} (f : A → B) (R : relation B) (l : list A) :
  Sorted R (f <$> l) → Sorted (λ x y, R (f x) (f y)) l.
Proof.
  induction l as [| a l IH]; [constructor |].
  cbn [fmap list_fmap]. intros [Hl Hhd]%Sorted_inv.
  constructor; [by apply IH |].
  destruct l; constructor. by inv Hhd.
Qed.

Local Instance by_value_trans K : Transitive (by_value K).
Proof. unfold by_value. intros r1 r2 r3. lia. Qed.

Lemma product01_by_value (K : nat) : Sorted (by_value K) (product01 K).
Proof.
  apply (Sorted_fmap_inv (binary_value K) Z.le).
  rewrite binary_value_product01. apply seq_sorted.
Qed.

(** The facts about [np.unique] that the prior rests on. *)
Lemma np_unique_NoDup (y : ndarray2 Z) : NoDup (np_unique y).1.
Proof.
  unfold np_unique. cbn [fst].
  rewrite merge_sort_Permutation. apply NoDup_remove_dups.
Qed.

Lemma np_unique_elem_of (y : ndarray2 Z) (r : list Z) :
  r ∈ (np_unique y).1 ↔ r ∈ rows y.
Proof.
  unfold np_unique. cbn [fst].
  rewrite merge_sort_Permutation. apply elem_of_remove_dups.
Qed.

Lemma np_unique_sorted (y : ndarray2 Z) : Sorted lex (np_unique y).1.
Proof. unfold np_unique. cbn [fst]. apply Sorted_merge_sort. apply _. Qed.

Lemma np_unique_counts (y : ndarray2 Z) :
  (np_unique y).2 = count_row (rows y) <$> (np_unique y).1.
Proof. done. Qed.

Lemma count_row_absent (rs : list (list Z)) (r : list Z) :
  r ∉ rs → count_row rs r = 0%Z.
Proof.
  intros Hr. unfold count_row.
  induction rs as [| a rs IH]; [done |].
  apply not_elem_of_cons in Hr as [Hne Hr].
  rewrite filter_cons_False by done. by apply IH.
Qed.

Lemma count_row_nonneg (rs : list (list Z)) (r : list Z) : (0 ≤ count_row rs r)%Z.
Proof. unfold count_row. lia. Qed.

(** The counts of the rows of a table without repetitions that holds
    every row of [rs] add up to the number of rows. *)
Lemma count_row_sum (table rs : list (list Z)) :
  NoDup table → Forall (λ r, r ∈ table) rs →
  foldr Z.add 0%Z (count_row rs <$> table) = Z.of_nat (length rs).
Proof.
  intros Hnodup. induction 1 as [| a rs Ha _ IH].
  - induction table as [| t table IHt]; [done |].
    cbn [fmap list_fmap foldr]. apply NoDup_cons in Hnodup as [_ Hnodup].
    rewrite IHt by done. done.
  - cbn [length]. rewrite Nat2Z.inj_succ, <-IH. clear IH.
    revert Ha Hnodup. induction table as [| t table IHt]; intros Ha Hnodup.
    + by apply elem_of_nil in Ha.
    + apply NoDup_cons in Hnodup as [Ht Hnodup].
      cbn [fmap list_fmap foldr]. unfold count_row at 1 3.
      destruct (decide (t = a)) as [-> | Hne].
      * rewrite filter_cons_True by done. cbn [length].
        assert (Hrest : foldr Z.add 0%Z (count_row (a :: rs) <$> table)
                        = foldr Z.add 0%Z (count_row rs <$> table)).
        { f_equal. apply list_fmap_ext. intros _ r Hr%list_elem_of_lookup_2.
          unfold count_row. rewrite filter_cons_False; [done |].
          intros ->. done. }
        rewrite Hrest. lia.
      * rewrite filter_cons_False by done.
        apply elem_of_cons in Ha as [-> | Ha]; [done |].
        specialize (IHt Ha Hnodup). lia.
Qed.

Lemma fmap_replicate_const {A B} (f : A → B) (l : list A) (b : B) :
  Forall (λ x, f x = b) l → replicate (length l) b = f <$> l.
Proof. induction 1 as [| x l Hx _ IH]; [done |]. simpl. by rewrite Hx, IH. Qed.

(** Reading the counts at indices within range. *)
Lemma for_each_getitem (counts : list Z) (ids : list nat) :
  Forall (λ i, i < length counts)%nat ids →
  for_each (λ i, getitem counts (Z.of_nat i)) ids
  = Ok ((λ i, nth i counts 0%Z) <$> ids).
Proof.
  induction 1 as [| i ids Hi _ IH]; [done |].
  cbn [for_each fmap list_fmap]. rewrite IH.
  unfold getitem at 1. cbv zeta.
  destruct (decide (Z.of_nat i < 0)%Z) as [? | _]; [lia |].
  destruct (decide (0 ≤ Z.of_nat i)%Z) as [_ | ?]; [| lia].
  rewrite Nat2Z.id.
  destruct (lookup_lt_is_Some_2 counts i Hi) as [c Hc].
  rewrite Hc. cbn [mbind result_bind]. by rewrite (nth_lookup_Some _ _ _ _ Hc).
Qed.

Lemma float64_sum_finite (py : list Qc) :
  float64_sum (Finite <$> py) = Finite (foldr Qcplus 0 py).
Proof.
  unfold float64_sum.
  assert (Hgen : ∀ acc, fold_left float64_add (Finite <$> py) (Finite acc)
                        = Finite (acc + foldr Qcplus 0 py)).
  { induction py as [| p py IH]; intros acc; cbn [fmap list_fmap fold_left foldr].
    - by rewrite Qcplus_0_r.
    - cbn [float64_add]. rewrite IH. f_equal. ring. }
  rewrite Hgen. f_equal. ring.
Qed.

Lemma frequency_sum (y : ndarray2 Z) (table : list (list Z)) :
  foldr Qcplus 0 (frequency y <$> table)
  = Qc_of_Z (foldr Z.add 0%Z (count_row (rows y) <$> table))
    / Qc_of_Z (Z.of_nat (nrows y)).
Proof.
  induction table as [| r table IH]; cbn [fmap list_fmap foldr].
  - unfold Qcdiv. by rewrite Z2Qc_inj_0, Qcmult_0_l.
  - rewrite IH, Z2Qc_inj_add. unfold frequency, Qcdiv. ring.
Qed.

Section PriorProperties.

Variable list_of_set : list (list Z) → list (list Z).
Hypothesis list_of_set_Permutation : ∀ l, list_of_set l ≡ₚ l.

(** The counts leave [_fix_missing_class_count] as the counts of all the
    configurations, in the order of their binary values; in particular
    the call returns. *)
Lemma fix_missing_class_count_spec (y : ndarray2 Z) :
  wf y → Forall (Forall binary) (rows y) →
  _fix_missing_class_count list_of_set (ncols y) (np_unique y).1 (np_unique y).2
  = Ok (count_row (rows y) <$> product01 (ncols y)).
Proof.
  intros Hwf Hbin.
  set (K := ncols y). set (U := (np_unique y).1). set (P := product01 K).
  assert (HU : NoDup U) by apply np_unique_NoDup.
  assert (HUP : ∀ r, r ∈ U → r ∈ P).
  { intros r Hr%np_unique_elem_of. apply elem_of_product01.
    - unfold wf in Hwf. rewrite Forall_forall in Hwf. by apply Hwf.
    - rewrite Forall_forall in Hbin. by apply Hbin. }
  assert (HP : NoDup P) by apply product01_NoDup.
  unfold _fix_missing_class_count. rewrite np_unique_counts. fold U P.
  destruct (decide (length U < 2 ^ K)%nat) as [Hlt | Hge].
  - set (D := list_difference P U).
    assert (HM : list_of_set D ≡ₚ D) by apply list_of_set_Permutation.
    destruct (list_of_set D) as [| m M] eqn:Hmissing.
    { (* some configuration is missing *)
      apply Permutation_nil_l in HM.
      assert (Hsub : P ⊆+ U).
      { apply NoDup_submseteq; [done |]. intros r Hr.
        destruct (decide (r ∈ U)) as [| Hn]; [done |].
        assert (HrD : r ∈ D) by (by apply list_elem_of_difference).
        rewrite <-HM in HrD. by apply elem_of_nil in HrD. }
      apply submseteq_length in Hsub. unfold P in Hsub.
      rewrite product01_length in Hsub. lia. }
    set (T := U ++ m :: M).
    assert (HT : T ≡ₚ P).
    { unfold T. rewrite HM. unfold D. apply NoDup_Permutation; [| done |].
      - apply NoDup_app. split; [done |]. split.
        + intros r Hr [_ Hn]%list_elem_of_difference. done.
        + by apply NoDup_list_difference.
      - intros r. rewrite elem_of_app, list_elem_of_difference.
        destruct (decide (r ∈ U)) as [Hin | Hout].
        + split; [intros _; by apply HUP | intros _; by left].
        + split; [intros [? | [? _]]; done | intros ?; by right]. }
    assert (Hcounts : (count_row (rows y) <$> U) ++ replicate (length (m :: M)) 0%Z
                      = count_row (rows y) <$> T).
    { unfold T. rewrite fmap_app. f_equal.
      apply fmap_replicate_const, Forall_forall. intros r Hr.
      apply count_row_absent. rewrite <-np_unique_elem_of. fold U.
      rewrite HM in Hr. by apply list_elem_of_difference in Hr as [_ ?]. }
    rewrite Hcounts. fold T.
    set (ids := argsort (binary_value K <$> T)).
    assert (Hids : ids ≡ₚ seq 0 (length T)).
    { unfold ids. by rewrite argsort_Permutation, length_fmap. }
    assert (Hrange : Forall (λ i, i < length T)%nat ids).
    { rewrite Hids. apply Forall_forall. intros i Hi%elem_of_seq. lia. }
    rewrite for_each_getitem by (by rewrite length_fmap).
    f_equal.
    assert (Hsorted : (λ i, nth i T []) <$> ids = P).
    { apply (Sorted_unique_strong (by_value K)).
      - intros r1 r2 Hr1 Hr2 H12 H21. apply (binary_value_inj K); [| done |].
        + fold P. rewrite <-HT. rewrite Hids in Hr1.
          apply list_elem_of_fmap in Hr1 as (i & -> & Hi%elem_of_seq).
          apply list_elem_of_In, nth_In. lia.
        + unfold by_value in *. lia.
      - apply (Sorted_fmap_inv (binary_value K) Z.le).
        rewrite <-list_fmap_compose.
        rewrite (list_fmap_ext _ (λ i, nth i (binary_value K <$> T) 0%Z) ids).
        + apply argsort_sorted.
        + intros _ i Hi%list_elem_of_lookup_2. unfold compose.
          rewrite Forall_forall in Hrange.
          by rewrite (nth_fmap_lt _ T _ _ []) by (by apply Hrange).
      - apply product01_by_value.
      - rewrite Hids, nth_seq_fmap. exact HT. }
    rewrite <-Hsorted, <-list_fmap_compose.
    apply list_fmap_ext. intros _ i Hi%list_elem_of_lookup_2. unfold compose.
    rewrite Forall_forall in Hrange.
    by rewrite (nth_fmap_lt _ T _ _ []) by (by apply Hrange).
  - (* every configuration occurs: the sorted rows are the configurations *)
    assert (HUeq : U = P).
    { apply (Sorted_unique lex).
      - apply np_unique_sorted.
      - apply StronglySorted_Sorted, product01_sorted.
      - apply submseteq_length_Permutation.
        + by apply NoDup_submseteq.
        + unfold P. rewrite product01_length. lia. }
    by rewrite HUeq.
Qed.

Lemma multilabel_py_spec (y : ndarray2 Z) :
  wf y → Forall (Forall binary) (rows y) → (0 < nrows y)%nat →
  multilabel_py list_of_set y
  = Ok (Finite <$> (frequency y <$> product01 (ncols y))).
Proof.
  intros Hwf Hbin HN. unfold multilabel_py.
  destruct (np_unique y) as [unique_labels counts] eqn:Hunique.
  pose proof (fix_missing_class_count_spec y Hwf Hbin) as Hfix.
  rewrite Hunique in Hfix. cbn [fst snd] in Hfix. rewrite Hfix.
  cbn [mbind result_bind]. f_equal.
  change (map ?f ?l) with (f <$> l). rewrite <-!list_fmap_compose.
  apply list_fmap_ext. intros _ r _. unfold compose, true_divide, frequency.
  by rewrite decide_False by lia.
Qed.

(** C3, as the code has it.  For every binary [N] by [K] label array with
    at least one row, [multilabel_py] returns a vector of [2 ** K] finite
    entries, none negative, which sum to 1; the entry at index [i] is the
    relative frequency of the configuration whose binary value, first
    column first, is [i], so 0 for a configuration that does not occur;
    whatever the iteration order of the set of missing configurations.
    And [multilabel_py([[0,0],[0,1],[1,0],[1,1],[1,0]])] is
    [0.2, 0.2, 0.4, 0.2]. *)
Theorem C3_multilabel_py :
  (∀ y : ndarray2 Z,
     wf y → Forall (Forall binary) (rows y) → (0 < nrows y)%nat →
     ∃ py : list Qc,
       multilabel_py list_of_set y = Ok (Finite <$> py)
       ∧ length py = (2 ^ ncols y)%nat
       ∧ Forall (λ p, 0 ≤ p) py
       ∧ float64_sum (Finite <$> py) = Finite 1
       ∧ py = frequency y <$> product01 (ncols y)
       ∧ binary_value (ncols y) <$> product01 (ncols y)
         = Z.of_nat <$> seq 0 (2 ^ ncols y)
       ∧ ∀ r, r ∉ rows y → frequency y r = 0)
  ∧ multilabel_py list_of_set
      (Array2 2 [[0; 0]; [0; 1]; [1; 0]; [1; 1]; [1; 0]]%Z)
    = Ok [Finite (frac 2 10); Finite (frac 2 10); Finite (frac 4 10);
          Finite (frac 2 10)].
Proof.
  split; [| evaluate].
  intros y Hwf Hbin HN.
  exists (frequency y <$> product01 (ncols y)).
  assert (HNpos : 0 < Qc_of_Z (Z.of_nat (nrows y))).
  { rewrite <-Z2Qc_inj_0. apply (proj1 (Z2Qc_inj_lt 0 (Z.of_nat (nrows y)))). lia. }
  assert (HNne : Qc_of_Z (Z.of_nat (nrows y)) ≠ 0).
  { intros Heq. rewrite Heq in HNpos. by apply Qclt_not_eq in HNpos. }
  split; [by apply multilabel_py_spec |].
  split; [by rewrite length_fmap, product01_length |].
  split.
  { rewrite Forall_fmap. apply Forall_forall. intros r _. unfold compose, frequency.
    apply (Qcmult_le_mono_pos_l _ _ _ HNpos).
    rewrite Qcmult_0_r, Qcmult_div_r by done.
    rewrite <-Z2Qc_inj_0.
    apply (proj1 (Z2Qc_inj_le 0 (count_row (rows y) r))), count_row_nonneg. }
  split.
  { rewrite float64_sum_finite, frequency_sum. f_equal.
    rewrite count_row_sum.
    - unfold nrows, Qcdiv. by apply Qcmult_inv_r.
    - apply product01_NoDup.
    - unfold wf in Hwf. rewrite Forall_forall in Hwf, Hbin.
      apply Forall_forall. intros r Hr. apply elem_of_product01; auto. }
  split; [done |].
  split; [apply binary_value_product01 |].
  intros r Hr. unfold frequency, Qcdiv.
  by rewrite count_row_absent, Z2Qc_inj_0, Qcmult_0_l.
Qed.

End PriorProperties.

Lemma C3_multilabel_py_witness :
  ∃ py : list Qc,
    multilabel_py reverse (Array2 2 [[0; 1]; [1; 1]; [1; 1]]%Z) = Ok (Finite <$> py)
    ∧ length py = 4%nat
    ∧ float64_sum (Finite <$> py) = Finite 1.
Proof.
  destruct (proj1 (C3_multilabel_py reverse reverse_Permutation)
              (Array2 2 [[0; 1]; [1; 1]; [1; 1]]%Z))
    as (py & Hpy & Hlen & _ & Hsum & _).
  - repeat constructor.
  - repeat constructor; (by left) || (by right).
  - unfold nrows. simpl. lia.
  - exists py. done.
Defined.

(** C3 as stated fails on an array without rows: the counts are divided
    by [N = 0], and the entries are not numbers. *)
Lemma C3_counterexample :
  multilabel_py id (Array2 1 []) = Ok [NaN; NaN]
  ∧ float64_sum [NaN; NaN] ≠ Finite 1
  ∧ ¬ ∃ py : list Qc, multilabel_py id (Array2 1 []) = Ok (Finite <$> py).
Proof.
  assert (H : multilabel_py id (Array2 1 []) = Ok [NaN; NaN]) by reflexivity.
  split; [exact H |]. split; [done |].
  intros [py Hpy]. rewrite H in Hpy.
  injection Hpy as Hpy. by destruct py.
Qed.

(** ** Rounding *)

Set Warnings "-inexact-float".

(** The documented examples in binary64: the decimals of the docstrings
    are the doubles the arithmetic of the source produces, not only the
    exact values. *)
Lemma binary64_documented_values :
  let scores :=
    Binary64.class_scores example_labels
      (Array2 3 [[0.1; 0.9; 0.1]; [0.4; 0.1; 0.9]]%float) in
  Binary64.exponential_moving_average scores 0.8%float = Some [0.9; 0.5]%float
  ∧ Binary64.row_min <$> rows scores = [0.9; 0.4]%float
  ∧ Binary64.exponential_moving_average
      (Array2 3 [[0.1; 0.2; 0.3]]%float) 0.5%float = Some [0.175%float]
  ∧ [1 / 5; 1 / 5; 2 / 5; 1 / 5]%float = [0.2; 0.2; 0.4; 0.2]%float.
Proof. repeat split; vm_compute; reflexivity. Qed.

(** * Further properties *)

(** ** The class ids of the cross-validation split *)

(** The dictionary built from rows without repetitions sends a row to its
    position. *)
Lemma fold_insert_lookup (U : list (list Z)) :
  ∀ (j : nat) (d0 : gmap (list Z) nat) (r : list Z) (x : nat),
    NoDup U →
    fold_left (λ d (item : nat * list Z), <[item.2 := item.1]> d)
      (zip (seq j (length U)) U) d0 !! r = Some x
    ↔ ((∃ i, U !! i = Some r ∧ x = (j + i)%nat) ∨ ((r ∉ U) ∧ d0 !! r = Some x)).
Proof.
  induction U as [| u U IH]; intros j d0 r x Hnodup.
  - simpl. split.
    + intros Hx. right. split; [apply not_elem_of_nil | done].
    + intros [(i & Hi & _) | [_ Hx]]; [done | done].
  - apply NoDup_cons in Hnodup as [Hu Hnodup].
    cbn [length seq zip zip_with fold_left fst snd].
    change (zip_with pair ?l ?k) with (zip l k).
    rewrite (IH (S j) (<[u := j]> d0) r x Hnodup).
    destruct (decide (r = u)) as [-> | Hne].
    + rewrite lookup_insert_eq. split.
      * intros [(i & Hi & _) | [_ Hx]].
        -- destruct Hu. by eapply list_elem_of_lookup_2.
        -- left. exists 0%nat. split; [done |]. injection Hx as <-. lia.
      * intros [(i & Hi & ->) | [Hn _]].
        -- destruct i as [| i]; simpl in Hi.
           ++ right. split; [done |]. f_equal. lia.
           ++ destruct Hu. by eapply list_elem_of_lookup_2.
        -- destruct Hn. by left.
    + rewrite lookup_insert_ne by done. split.
      * intros [(i & Hi & ->) | [Hn Hx]].
        -- left. exists (S i). split; [done | lia].
        -- right. split; [| done]. by apply not_elem_of_cons.
      * intros [(i & Hi & ->) | [Hn Hx]].
        -- destruct i as [| i]; simpl in Hi; [congruence |].
           left. exists i. split; [done | lia].
        -- right. apply not_elem_of_cons in Hn as [_ Hn]. done.
Qed.

Lemma label_to_index_lookup (U : list (list Z)) (r : list Z) (i : nat) :
  NoDup U → label_to_index U !! r = Some i ↔ U !! i = Some r.
Proof.
  intros Hnodup. unfold label_to_index, enumerate.
  rewrite (fold_insert_lookup U 0 ∅ r i Hnodup). split.
  - intros [(i' & Hi & ->) | [_ Hx]]; [done | by rewrite lookup_empty in Hx].
  - intros Hi. left. by exists i.
Qed.

(** Every row is a key of the dictionary: its id is its position among
    the sorted distinct rows. *)
Lemma multilabel_ids_spec (y : ndarray2 Z) :
  ∃ ids, multilabel_ids y = Some ids
         ∧ Forall2 (λ row i, (np_unique y).1 !! i = Some row) (rows y) ids.
Proof.
  unfold multilabel_ids.
  destruct (mapM (λ label, label_to_index (np_unique y).1 !! label) (rows y))
    as [ids |] eqn:Hids.
  - exists ids. split; [done |].
    apply mapM_Some in Hids.
    eapply Forall2_impl; [exact Hids |]. intros row i Hi. simpl in Hi.
    by apply label_to_index_lookup in Hi; [| apply np_unique_NoDup].
  - exfalso. apply eq_None_not_Some in Hids. apply Hids.
    apply mapM_is_Some, Forall_forall.
    intros row Hrow. unfold compose.
    apply np_unique_elem_of, list_elem_of_lookup_1 in Hrow as [i Hi].
    exists i. by apply label_to_index_lookup; [apply np_unique_NoDup |].
Qed.

Lemma StronglySorted_lookup_lt {A} (R : relation A) (l : list A) (i j : nat) (x y : A) :
  StronglySorted R l → l !! i = Some x → l !! j = Some y → (i < j)%nat → R x y.
Proof.
  intros Hsorted. revert i j.
  induction Hsorted as [| a l _ IH Hall]; intros i j Hi Hj Hlt; [done |].
  destruct j as [| j]; [lia |]. simpl in Hj.
  destruct i as [| i]; simpl in Hi.
  - injection Hi as <-. rewrite Forall_forall in Hall.
    by eapply Hall, list_elem_of_lookup_2.
  - apply (IH i j); [done | done | lia].
Qed.

Lemma lex_refl (r : list Z) : lex r r.
Proof. by destruct (lex_le_total r r). Qed.

Section SplitGenerator.

Context {Splits : Type} (split : list nat → list nat → Splits).

(** X1.  [_get_split_generator] never meets a [KeyError]: it calls the
    splitter with one id for each row, as both [X] and [y], and two rows
    have the same id exactly when they are the same configuration. *)
Theorem split_ids_identify_configurations (labels : ndarray2 Z) :
  ∃ ids, _get_split_generator split labels = Some (split ids ids)
    ∧ length ids = nrows labels
    ∧ ∀ i j row_i row_j id_i id_j,
        rows labels !! i = Some row_i → rows labels !! j = Some row_j →
        ids !! i = Some id_i → ids !! j = Some id_j →
        (id_i = id_j ↔ row_i = row_j).
Proof.
  destruct (multilabel_ids_spec labels) as (ids & Hids & Hall).
  exists ids. unfold _get_split_generator. rewrite Hids.
  split; [done |]. split; [symmetry; by eapply Forall2_length |].
  intros i j row_i row_j id_i id_j Hi Hj Hidi Hidj.
  pose proof (Forall2_lookup_lr _ _ _ _ _ _ Hall Hi Hidi) as Hui.
  pose proof (Forall2_lookup_lr _ _ _ _ _ _ Hall Hj Hidj) as Huj.
  cbv beta in Hui, Huj. split.
  - intros ->. congruence.
  - intros ->.
    eapply (NoDup_lookup _ _ _ _ (np_unique_NoDup labels)); eassumption.
Qed.

(** X2.  The ids number the distinct rows in their sorted order: every
    id is below the number of distinct rows, every number below it is an
    id, and a row has the smaller id exactly when it comes first in the
    lexicographic order. *)
Theorem split_ids_follow_row_order (labels : ndarray2 Z) :
  ∃ ids, _get_split_generator split labels = Some (split ids ids)
    ∧ Forall (λ id, id < length (np_unique labels).1)%nat ids
    ∧ (∀ id, (id < length (np_unique labels).1)%nat → id ∈ ids)
    ∧ ∀ i j row_i row_j id_i id_j,
        rows labels !! i = Some row_i → rows labels !! j = Some row_j →
        ids !! i = Some id_i → ids !! j = Some id_j →
        ((id_i ≤ id_j)%nat ↔ lex row_i row_j).
Proof.
  destruct (multilabel_ids_spec labels) as (ids & Hids & Hall).
  exists ids. unfold _get_split_generator. rewrite Hids.
  split; [done |]. split; [| split].
  - apply Forall_forall. intros id [i Hi]%list_elem_of_lookup_1.
    destruct (Forall2_lookup_r _ _ _ _ _ Hall Hi) as (row & _ & Hrow).
    cbv beta in Hrow. by eapply lookup_lt_Some.
  - intros id [row Hrow]%lookup_lt_is_Some_2.
    assert (Hin : row ∈ rows labels)
      by (by eapply np_unique_elem_of, list_elem_of_lookup_2).
    apply list_elem_of_lookup_1 in Hin as [i Hi].
    destruct (Forall2_lookup_l _ _ _ _ _ Hall Hi) as (id' & Hid' & Hrow').
    cbv beta in Hrow'.
    assert (id = id')
      by (eapply (NoDup_lookup _ _ _ _ (np_unique_NoDup labels)); eassumption).
    subst. by eapply list_elem_of_lookup_2.
  - intros i j row_i row_j id_i id_j Hi Hj Hidi Hidj.
    pose proof (Forall2_lookup_lr _ _ _ _ _ _ Hall Hi Hidi) as Hui.
    pose proof (Forall2_lookup_lr _ _ _ _ _ _ Hall Hj Hidj) as Huj.
    cbv beta in Hui, Huj.
    assert (Hsorted : StronglySorted lex (np_unique labels).1)
      by (apply Sorted_StronglySorted; [apply _ | apply np_unique_sorted]).
    split.
    + intros Hle. destruct (decide (id_i = id_j)) as [-> | Hne].
      * assert (row_i = row_j) by congruence. subst. apply lex_refl.
      * eapply (StronglySorted_lookup_lt lex _ id_i id_j _ _ Hsorted);
          [eassumption .. | lia].
    + intros Hlex. destruct (decide (id_i ≤ id_j)%nat) as [| Hgt]; [done |].
      assert (Hback : lex row_j row_i)
        by (eapply (StronglySorted_lookup_lt lex _ id_j id_i _ _ Hsorted);
            [eassumption .. | lia]).
      assert (row_i = row_j) by (by apply (anti_symm lex)).
      subst. assert (id_i = id_j)
        by (eapply (NoDup_lookup _ _ _ _ (np_unique_NoDup labels)); eassumption).
      lia.
Qed.

End SplitGenerator.

(** ** The moving average as a function of the scores and of alpha *)

Lemma Qc_sub_nonneg (x y : Qc) : x ≤ y → 0 ≤ y - x.
Proof. intros Hxy. by apply Qcle_minus_iff in Hxy. Qed.

Lemma Qc_le_of_sub (x y : Qc) : 0 ≤ y - x → x ≤ y.
Proof. intros Hxy. by apply Qcle_minus_iff. Qed.

Lemma Qc_mul_nonneg (x y : Qc) : 0 ≤ x → 0 ≤ y → 0 ≤ x * y.
Proof.
  intros Hx Hy. replace 0 with (0 * y) by ring.
  by apply Qcmult_le_compat_r.
Qed.

Lemma Qc_add_nonneg (x y : Qc) : 0 ≤ x → 0 ≤ y → 0 ≤ x + y.
Proof.
  intros Hx Hy. replace 0 with (0 + 0) by ring.
  by apply Qcplus_le_compat.
Qed.

(** A step of the average stays between its two arguments' bounds. *)
Lemma running_average_between (a lo hi e x : Qc) :
  0 ≤ a → a ≤ 1 → lo ≤ e → e ≤ hi → lo ≤ x → x ≤ hi →
  lo ≤ running_average a e x ∧ running_average a e x ≤ hi.
Proof.
  intros H0 H1 Hle Heh Hlx Hxh. unfold running_average.
  apply Qc_sub_nonneg in H1, Hle, Heh, Hlx, Hxh.
  split; apply Qc_le_of_sub.
  - replace (a * x + (1 - a) * e - lo)
      with (a * (x - lo) + (1 - a) * (e - lo)) by ring.
    by apply Qc_add_nonneg; apply Qc_mul_nonneg.
  - replace (hi - (a * x + (1 - a) * e))
      with (a * (hi - x) + (1 - a) * (hi - e)) by ring.
    by apply Qc_add_nonneg; apply Qc_mul_nonneg.
Qed.

Lemma fold_running_average_between (a lo hi : Qc) (l : list Qc) :
  0 ≤ a → a ≤ 1 → Forall (λ x, lo ≤ x ∧ x ≤ hi) l →
  ∀ e, lo ≤ e → e ≤ hi →
       lo ≤ fold_left (running_average a) l e
       ∧ fold_left (running_average a) l e ≤ hi.
Proof.
  intros H0 H1. induction 1 as [| x l [Hlx Hxh] _ IH]; intros e Hle Heh; [done |].
  simpl.
  destruct (running_average_between a lo hi e x) as [Hlo Hhi]; try done.
  by apply IH.
Qed.

Lemma sort_descending_nonempty (row : list Qc) :
  row ≠ [] → ∃ largest others, sort_descending row = largest :: others.
Proof.
  intros Hne. pose proof (sort_descending_length row) as Hlen.
  destruct (sort_descending row) as [| largest others]; [| by eauto].
  by destruct row.
Qed.

Lemma sort_descending_elements (row : list Qc) : sort_descending row ≡ₚ row.
Proof. unfold sort_descending. apply merge_sort_Permutation. Qed.

Lemma sort_descending_sorted (row : list Qc) :
  StronglySorted (flip Qcle) (sort_descending row).
Proof.
  apply Sorted_StronglySorted; [apply _ |].
  unfold sort_descending. apply Sorted_merge_sort. apply _.
Qed.

Lemma ema_of_row_between (a lo hi : Qc) (row : list Qc) :
  0 ≤ a → a ≤ 1 → row ≠ [] → Forall (λ x, lo ≤ x ∧ x ≤ hi) row →
  lo ≤ ema_of_row a row ∧ ema_of_row a row ≤ hi.
Proof.
  intros H0 H1 Hne Hrow. unfold ema_of_row.
  rewrite <-(sort_descending_elements row) in Hrow.
  destruct (sort_descending_nonempty row Hne) as (largest & others & Hsorted).
  rewrite Hsorted in *. apply Forall_cons in Hrow as [[Hlo Hhi] Hothers].
  by apply fold_running_average_between.
Qed.

(** The moving average along the rows, for an alpha that passes the range
    check and for the default. *)
Lemma ema_rows (s : ndarray2 Qc) (alpha : pyval) (a : Qc) :
  wf s → (0 < ncols s)%nat → as_number alpha = Some a → 0 ≤ a → a ≤ 1 →
  exponential_moving_average s alpha (PInt 1) = Ok (ema_of_row a <$> rows s).
Proof.
  intros Hwf Hcols Hnum H0 H1.
  unfold exponential_moving_average. cbn [fliplr_sort].
  rewrite decide_True by (by left). cbn [mbind result_bind].
  assert (Hsame : match alpha with
                  | PNone => PFloat (2 / Qc_of_Z (Z.of_nat (ncols s) + 1))
                  | _ => alpha
                  end = alpha) by (destruct alpha; [discriminate | done..]).
  rewrite Hsame. unfold in_unit_interval. rewrite Hnum.
  rewrite bool_decide_eq_true_2 by done.
  cbn [mbind result_bind negb default from_option id].
  by apply ema_loop.
Qed.

Lemma ema_rows_default (s : ndarray2 Qc) :
  wf s → (0 < ncols s)%nat →
  exponential_moving_average s PNone (PInt 1)
  = Ok (ema_of_row (default_alpha (ncols s)) <$> rows s).
Proof.
  intros Hwf Hcols.
  destruct (default_alpha_valid (ncols s) Hcols) as [H0 H1].
  unfold exponential_moving_average. cbn [fliplr_sort].
  rewrite decide_True by (by left). cbn [mbind result_bind].
  unfold in_unit_interval. cbn [as_number].
  fold (default_alpha (ncols s)).
  rewrite bool_decide_eq_true_2 by done.
  cbn [mbind result_bind negb default from_option id].
  by apply ema_loop.
Qed.

Lemma wf_rows_nonempty {A} (s : ndarray2 A) :
  wf s → (0 < ncols s)%nat → Forall (λ row, row ≠ []) (rows s).
Proof.
  intros Hwf Hcols. eapply Forall_impl; [exact Hwf |].
  intros row Hlen ->. simpl in Hlen. lia.
Qed.

Lemma running_average_one (e x : Qc) : running_average 1 e x = x.
Proof. unfold running_average. ring. Qed.

Lemma running_average_zero (e x : Qc) : running_average 0 e x = e.
Proof. unfold running_average. ring. Qed.

(** With alpha 1 the fold keeps the last, so the smallest, score. *)
Lemma fold_running_average_one (l : list Qc) :
  ∀ e, StronglySorted (flip Qcle) (e :: l) →
       fold_left (running_average 1) l e ∈ e :: l
       ∧ Forall (λ y, fold_left (running_average 1) l e ≤ y) (e :: l).
Proof.
  induction l as [| x l IH]; intros e Hsorted.
  - simpl. split; [by left |]. repeat constructor. apply Qcle_refl.
  - cbn [fold_left]. rewrite running_average_one.
    apply StronglySorted_inv in Hsorted as [Hrest Hall].
    destruct (IH x Hrest) as [Hin Hmin]. split; [by right |].
    constructor; [| done].
    apply Forall_cons in Hall as [Hxe _]. apply Forall_cons in Hmin as [Hmx _].
    unfold flip in Hxe. by eapply Qcle_trans.
Qed.

Lemma fold_running_average_zero (l : list Qc) (e : Qc) :
  fold_left (running_average 0) l e = e.
Proof.
  induction l as [| x l IH]; [done |].
  cbn [fold_left]. by rewrite running_average_zero.
Qed.

Lemma ema_of_row_one (row : list Qc) :
  row ≠ [] → ema_of_row 1 row ∈ row ∧ Forall (λ y, ema_of_row 1 row ≤ y) row.
Proof.
  intros Hne. unfold ema_of_row.
  pose proof (sort_descending_sorted row) as Hsorted.
  pose proof (sort_descending_elements row) as Hperm.
  destruct (sort_descending_nonempty row Hne) as (largest & others & Heq).
  rewrite Heq in *.
  destruct (fold_running_average_one others largest Hsorted) as [Hin Hmin].
  by rewrite <-Hperm.
Qed.

Lemma ema_of_row_zero (row : list Qc) :
  row ≠ [] → ema_of_row 0 row ∈ row ∧ Forall (λ y, y ≤ ema_of_row 0 row) row.
Proof.
  intros Hne. unfold ema_of_row.
  pose proof (sort_descending_sorted row) as Hsorted.
  pose proof (sort_descending_elements row) as Hperm.
  destruct (sort_descending_nonempty row Hne) as (largest & others & Heq).
  rewrite Heq in *. rewrite fold_running_average_zero, <-Hperm.
  split; [by left |].
  apply StronglySorted_inv in Hsorted as [_ Hall].
  constructor; [apply Qcle_refl | exact Hall].
Qed.

(** X4.  The two ends of the range of alpha: with alpha 1 the moving
    average of a row is its smallest score, with alpha 0 its largest. *)
Theorem ema_extreme_alphas (s : ndarray2 Qc) :
  wf s → (0 < ncols s)%nat →
  (∀ alpha, as_number alpha = Some 1 →
     ∃ out, exponential_moving_average s alpha (PInt 1) = Ok out
       ∧ Forall2 (λ row x, x ∈ row ∧ Forall (λ y, x ≤ y) row) (rows s) out)
  ∧ (∀ alpha, as_number alpha = Some 0 →
       ∃ out, exponential_moving_average s alpha (PInt 1) = Ok out
         ∧ Forall2 (λ row x, x ∈ row ∧ Forall (λ y, y ≤ x) row) (rows s) out).
Proof.
  intros Hwf Hcols.
  pose proof (wf_rows_nonempty s Hwf Hcols) as Hne.
  split; intros alpha Hnum.
  - exists (ema_of_row 1 <$> rows s).
    split; [by apply ema_rows |].
    apply Forall2_fmap_r, Forall_Forall2_diag.
    eapply Forall_impl; [exact Hne |]. intros row Hrow. by apply ema_of_row_one.
  - exists (ema_of_row 0 <$> rows s).
    split; [by apply ema_rows |].
    apply Forall2_fmap_r, Forall_Forall2_diag.
    eapply Forall_impl; [exact Hne |]. intros row Hrow. by apply ema_of_row_zero.
Qed.

Lemma ema_extreme_alphas_witness :
  (∃ out, exponential_moving_average
            (Array2 2 [[frac 1 10; frac 2 10]]) (PFloat 1) (PInt 1) = Ok out
     ∧ Forall2 (λ row x, x ∈ row ∧ Forall (λ y, x ≤ y) row)
         [[frac 1 10; frac 2 10]] out)
  ∧ (∃ out, exponential_moving_average
              (Array2 2 [[frac 1 10; frac 2 10]]) (PFloat 0) (PInt 1) = Ok out
       ∧ Forall2 (λ row x, x ∈ row ∧ Forall (λ y, y ≤ x) row)
           [[frac 1 10; frac 2 10]] out).
Proof.
  destruct (ema_extreme_alphas (Array2 2 [[frac 1 10; frac 2 10]]))
    as [Hone Hzero].
  - repeat constructor.
  - simpl. lia.
  - split.
    + apply (Hone (PFloat 1)). reflexivity.
    + apply (Hzero (PFloat 0)). reflexivity.
Defined.

(** The minimum numpy computes is the least element as well. *)
Lemma fold_Qc_min (l : list Qc) :
  ∀ e, fold_left Qc_min l e ∈ e :: l
       ∧ Forall (λ y, fold_left Qc_min l e ≤ y) (e :: l).
Proof.
  induction l as [| x l IH]; intros e.
  - simpl. split; [by left |]. repeat constructor. apply Qcle_refl.
  - cbn [fold_left]. destruct (IH (Qc_min e x)) as [Hin Hmin].
    apply Forall_cons in Hmin as [Hm Hrest].
    assert (Hex : Qc_min e x ≤ e ∧ Qc_min e x ≤ x ∧ (Qc_min e x = e ∨ Qc_min e x = x)).
    { unfold Qc_min. destruct (decide (e ≤ x)) as [Hle | Hgt].
      - split; [apply Qcle_refl |]. split; [done | by left].
      - split; [| split; [apply Qcle_refl | by right]].
        apply Qclt_le_weak. by apply Qcnot_le_lt. }
    destruct Hex as (Hme & Hmx & Hcase). split.
    + apply elem_of_cons in Hin as [-> | Hin].
      * destruct Hcase as [-> | ->]; [by left | by right; left].
      * by right; right.
    + constructor; [by eapply Qcle_trans |].
      constructor; [by eapply Qcle_trans | done].
Qed.

Lemma least_unique (row : list Qc) (x y : Qc) :
  x ∈ row → Forall (λ z, x ≤ z) row → y ∈ row → Forall (λ z, y ≤ z) row → x = y.
Proof.
  intros Hx Hxmin Hy Hymin. rewrite Forall_forall in Hxmin, Hymin.
  apply Qcle_antisym; auto.
Qed.

Lemma for_each_Ok {A B} (f : A → result B) (g : A → B) (xs : list A) :
  Forall (λ x, f x = Ok (g x)) xs → for_each f xs = Ok (g <$> xs).
Proof.
  induction 1 as [| x xs Hx _ IH]; [done |].
  cbn [for_each]. rewrite Hx, IH. done.
Qed.

(** X5.  With alpha 1 the moving average is [np.min] along the rows: on
    an array with at least one column, the aggregator that binds alpha to 1
    and the aggregator [Aggregator(np.min)] return the same scores. *)
Theorem ema_alpha_one_is_min (s : ndarray2 Qc) (alpha : pyval) (kw : gmap string pyval) :
  wf s → (0 < ncols s)%nat → as_number alpha = Some 1 →
  dom kw ⊆ ({["axis"]} : gset string) →
  Aggregator.__call__
    (Aggregator.Build exponential_moving_average_method {[ "alpha" := alpha ]})
    (NdArray2 s) kw
  = Aggregator.__call__ (Aggregator.Build np_min ∅) (NdArray2 s) kw.
Proof.
  intros Hwf Hcols Hnum Hdom.
  assert (Hother : ∀ key, key ≠ "axis" → kw !! key = None).
  { intros key Hkey. apply not_elem_of_dom. intros Hin.
    apply Hdom in Hin. by apply elem_of_singleton in Hin. }
  pose proof (Hother "s" ltac:(done)) as Hs.
  pose proof (Hother "a" ltac:(done)) as Ha.
  pose proof (wf_rows_nonempty s Hwf Hcols) as Hne.
  unfold Aggregator.__call__.
  cbn [Aggregator._validate_scores Aggregator.method Aggregator.kwargs
       mbind result_bind].
  set (bound := {[ "alpha" := alpha ]} : gmap string pyval).
  assert (Halpha : (bound ∪ <["axis" := PInt 1]> kw) !! "alpha" = Some alpha).
  { apply lookup_union_Some_l. by apply lookup_singleton_eq. }
  assert (Haxis : (bound ∪ <["axis" := PInt 1]> kw) !! "axis" = Some (PInt 1)).
  { rewrite lookup_union_r by (by apply lookup_singleton_ne).
    by apply lookup_insert_eq. }
  assert (Hs' : (bound ∪ <["axis" := PInt 1]> kw) !! "s" = None).
  { rewrite lookup_union_r by (by apply lookup_singleton_ne).
    by rewrite lookup_insert_ne. }
  unfold exponential_moving_average_method, np_min.
  cbn [positional]. rewrite Hs'.
  rewrite decide_False by (by intros [? ?]).
  cbn [mbind result_bind]. rewrite Halpha, Haxis.
  cbn [default from_option id].
  rewrite (left_id_L ∅ (∪)).
  rewrite (lookup_insert_ne _ "axis" "a") by done. rewrite Ha.
  rewrite (decide_False (P := is_Some None)) by (by intros [? ?]).
  cbn [mbind result_bind].
  rewrite decide_True
    by (rewrite dom_insert; apply union_least; [done | exact Hdom]).
  rewrite lookup_insert_eq, decide_True by (by left).
  rewrite (ema_rows s alpha 1) by done.
  symmetry. apply for_each_Ok.
  eapply Forall_impl; [exact Hne |]. intros row Hrow.
  destruct row as [| x row]; [done |]. cbn [vector_min]. f_equal.
  destruct (fold_Qc_min row x) as [Hin Hmin].
  destruct (ema_of_row_one (x :: row) Hrow) as [Hin' Hmin'].
  by apply (least_unique (x :: row)).
Qed.

Lemma ema_alpha_one_is_min_witness :
  Aggregator.__call__
    (Aggregator.Build exponential_moving_average_method {[ "alpha" := PFloat 1 ]})
    (NdArray2 (Array2 2 [[frac 1 10; frac 2 10]])) ∅
  = Aggregator.__call__ (Aggregator.Build np_min ∅)
      (NdArray2 (Array2 2 [[frac 1 10; frac 2 10]])) ∅.
Proof.
  apply (ema_alpha_one_is_min (Array2 2 [[frac 1 10; frac 2 10]]) (PFloat 1) ∅).
  - repeat constructor.
  - simpl. lia.
  - reflexivity.
  - rewrite dom_empty. apply empty_subseteq.
Defined.

(** X7.  On an array without columns the moving average never returns,
    whatever alpha and the axis are: there is no first score to start
    from. *)
Theorem ema_no_columns (s : ndarray2 Qc) (alpha axis : pyval) :
  ncols s = 0%nat →
  ∃ e, exponential_moving_average s alpha axis = Raise e.
Proof.
  intros HK. unfold exponential_moving_average.
  destruct (fliplr_sort s axis) as [s_sorted | e] eqn:Hsort; [| by eexists].
  assert (HK' : ncols s_sorted = 0%nat).
  { unfold fliplr_sort in Hsort. destruct axis; try done.
    repeat case_decide; try done; injection Hsort as <-; exact HK. }
  cbn [mbind result_bind].
  destruct (in_unit_interval _) as [ok | e]; [| by eexists].
  cbn [mbind result_bind]. destruct (negb ok); [by eexists |].
  unfold transpose. rewrite HK'. cbn [rows seq map]. by eexists.
Qed.

Lemma ema_no_columns_witness :
  ∃ e, exponential_moving_average (Array2 0 [[]; []]) (PFloat (frac 1 2)) (PInt 0)
       = Raise e.
Proof.
  apply (ema_no_columns (Array2 0 [[]; []]) (PFloat (frac 1 2)) (PInt 0)).
  reflexivity.
Defined.

Lemma ema_step_length (a : Qc) (n : nat) (l : list (list Qc)) :
  Forall (λ r, length r = n) l →
  ∀ acc, length acc = n → length (fold_left (ema_step a) l acc) = n.
Proof.
  induction 1 as [| r l Hr _ IH]; intros acc Hacc; [done |].
  cbn [fold_left]. apply IH. unfold ema_step.
  rewrite length_zip_with. lia.
Qed.

Lemma transpose_row_lengths {A} (d : A) (a : ndarray2 A) :
  Forall (λ r, length r = nrows a) (rows (transpose d a)).
Proof.
  unfold transpose. cbn [rows]. apply Forall_forall.
  intros r Hr. change (map ?f ?l) with (f <$> l) in Hr.
  apply list_elem_of_fmap in Hr as (j & -> & _).
  unfold column, nrows. by rewrite length_map.
Qed.

(** X8.  Whenever the moving average returns, along the rows or along
    the columns and with or without an alpha, it returns one score for
    each row of the array. *)
Theorem ema_one_score_per_row (s : ndarray2 Qc) (alpha axis : pyval) (out : list Qc) :
  exponential_moving_average s alpha axis = Ok out → length out = nrows s.
Proof.
  unfold exponential_moving_average. intros Hout.
  destruct (fliplr_sort s axis) as [s_sorted | e] eqn:Hsort; [| done].
  assert (HN : nrows s_sorted = nrows s).
  { unfold fliplr_sort in Hsort. destruct axis; try done.
    repeat case_decide; try done; injection Hsort as <-.
    - unfold sort_rows_descending, nrows. cbn [rows]. by rewrite length_map.
    - unfold sort_columns_then_flip, nrows, transpose. cbn [rows ncols].
      by rewrite !length_map, length_seq. }
  cbn [mbind result_bind] in Hout.
  destruct (in_unit_interval _) as [ok | e]; [| done].
  cbn [mbind result_bind] in Hout. destruct (negb ok); [done |].
  pose proof (transpose_row_lengths 0 s_sorted) as Hlen.
  destruct (rows (transpose 0 s_sorted)) as [| s_ema s_next]; [done |].
  injection Hout as <-. apply Forall_cons in Hlen as [Hema Hnext].
  rewrite <-HN. by apply ema_step_length.
Qed.

Lemma ema_one_score_per_row_witness :
  length [frac 5 100; frac 25 100]
  = nrows (Array2 2 [[frac 1 10; frac 2 10]; [frac 3 10; 0]]).
Proof.
  apply (ema_one_score_per_row
           (Array2 2 [[frac 1 10; frac 2 10]; [frac 3 10; 0]])
           (PFloat (frac 1 2)) (PInt 0)).
  evaluate.
Defined.

(** X9.  The moving average along the rows depends on the scores of a
    row, not on the classes they belong to: rearranging the scores within
    the rows, each row in a way of its own, changes nothing, whether the
    call returns or raises. *)
Theorem ema_order_within_rows (s1 s2 : ndarray2 Qc) (alpha : pyval) :
  ncols s1 = ncols s2 → Forall2 Permutation (rows s1) (rows s2) →
  exponential_moving_average s1 alpha (PInt 1)
  = exponential_moving_average s2 alpha (PInt 1).
Proof.
  intros HK Hrows. apply ema_sorted_ext; [done |].
  induction Hrows as [| r1 r2 l1 l2 Hr _ IH]; [done |].
  cbn [fmap list_fmap]. f_equal; [by apply sort_descending_Permutation | exact IH].
Qed.

Lemma ema_order_within_rows_witness :
  exponential_moving_average
    (Array2 2 [[frac 1 10; frac 2 10]; [frac 3 10; 0]]) PNone (PInt 1)
  = exponential_moving_average
      (Array2 2 [[frac 2 10; frac 1 10]; [frac 3 10; 0]]) PNone (PInt 1).
Proof.
  apply (ema_order_within_rows
           (Array2 2 [[frac 1 10; frac 2 10]; [frac 3 10; 0]])
           (Array2 2 [[frac 2 10; frac 1 10]; [frac 3 10; 0]]) PNone).
  - reflexivity.
  - repeat constructor.
Defined.

(** ** Keywords at call time *)

Lemma positional_free fname params (kw : gmap string pyval) :
  (∀ p, p ∈ params → kw !! p = None) → positional fname params kw = Ok ().
Proof.
  induction params as [| p params IH]; intros Hfree; [done |].
  cbn [positional]. rewrite (Hfree p) by (by left).
  rewrite (decide_False (P := is_Some None)) by (by intros [? ?]).
  apply IH. intros q Hq. apply Hfree. by right.
Qed.

(** X10.  An [axis] passed at call time never reaches the aggregation
    method: [Aggregator.__call__] overwrites it with 1, so an aggregator
    and a [MultilabelScorer] return the same with or without it, whatever
    its value. *)
Theorem call_time_axis_is_overwritten :
  (∀ (self : Aggregator.t) (scores : pyobject) (kw : gmap string pyval) (v : pyval),
     Aggregator.__call__ self scores (<["axis" := v]> kw)
     = Aggregator.__call__ self scores kw)
  ∧ (∀ (imports : Imports) (self : MultilabelScorer.t) labels pred_probs
       base_scorer_kwargs (kw : gmap string pyval) (v : pyval),
       get_label_quality_scores labels pred_probs self base_scorer_kwargs
         (<["axis" := v]> kw)
       = get_label_quality_scores labels pred_probs self base_scorer_kwargs kw).
Proof.
  assert (Hagg : ∀ (self : Aggregator.t) scores (kw : gmap string pyval) v,
            Aggregator.__call__ self scores (<["axis" := v]> kw)
            = Aggregator.__call__ self scores kw).
  { intros self scores kw v. unfold Aggregator.__call__.
    by rewrite insert_insert_eq. }
  split; [exact Hagg |].
  intros imports self labels pred_probs bkw kw v.
  assert (Hpos : ∀ fname params, "axis" ∉ params →
            positional fname params (<["axis" := v]> kw)
            = positional fname params kw).
  { intros fname params Hparams. apply positional_ext. intros p Hp.
    assert (p ≠ "axis") by (by intros ->).
    by rewrite lookup_insert_ne. }
  assert (Hnot : ∀ params : list string,
            Forall (λ p, p ≠ "axis") params → "axis" ∉ params).
  { intros params Hall Hin. rewrite Forall_forall in Hall.
    by apply (Hall _ Hin). }
  unfold get_label_quality_scores, MultilabelScorer.__call__.
  rewrite (Hpos "__call__" ["self"]) by (by apply Hnot; repeat constructor).
  apply bind_ext; intros _.
  apply bind_ext; intros _. apply bind_ext; intros scores.
  rewrite (Hpos "__call__" ["self"; "scores"])
    by (by apply Hnot; repeat constructor).
  apply bind_ext; intros _. apply Hagg.
Qed.

(** X11.  A [MultilabelScorer] built from the bare function
    [exponential_moving_average] wraps it in an aggregator that binds
    nothing: the alpha of the call decides, the default [2/(K+1)] when
    the call gives none, and the axis is 1. *)
Theorem bare_function_takes_call_time_alpha
    (base_scorer : ClassLabelScorer.t) (strict : bool) (name : string) :
  ∃ scorer,
    MultilabelScorer.__init__ base_scorer
      (MultilabelScorer.NoAggregator (Function name exponential_moving_average_method))
      strict = Ok scorer
    ∧ MultilabelScorer.base_scorer scorer = base_scorer
    ∧ MultilabelScorer.strict scorer = strict
    ∧ ∀ (a : ndarray2 Qc) (kw : gmap string pyval),
        Aggregator.__call__ (MultilabelScorer.aggregator scorer) (NdArray2 a) kw
        = (_ ← positional "exponential_moving_average" ["s"] kw;
           exponential_moving_average a (default PNone (kw !! "alpha")) (PInt 1)).
Proof.
  eexists. split; [reflexivity |]. split; [done |]. split; [done |].
  intros a kw. unfold Aggregator.__call__.
  cbn [Aggregator._validate_scores MultilabelScorer.aggregator
       Aggregator.method Aggregator.kwargs mbind result_bind].
  rewrite (left_id_L ∅ (∪)). unfold exponential_moving_average_method.
  rewrite (positional_ext _ _ _ kw).
  - apply bind_ext; intros _.
    by rewrite lookup_insert_eq, (lookup_insert_ne _ "axis" "alpha").
  - intros p ->%list_elem_of_singleton. by rewrite lookup_insert_ne.
Qed.

(** ** The validation of the labels *)

(** X12.  A strict scorer validates before it scores: labels that are
    not in the 0/1 indicator format raise the format error, and labels in
    the format whose shape differs from that of the probabilities raise
    the shape error; whatever the score functions, the aggregator and the
    keywords are, as long as no keyword is called [self] (the call of the
    scorer refuses that one first), so before any of them runs. *)
Theorem strict_scorer_validates_first `{Imports} (self : MultilabelScorer.t)
    (labels : ndarray2 Z) (pred_probs : ndarray2 Qc)
    (base_scorer_kwargs : option (gmap string pyval)) (kw : gmap string pyval) :
  MultilabelScorer.strict self = true →
  kw !! "self" = None →
  (¬ Forall (Forall binary) (rows labels) →
     get_label_quality_scores labels pred_probs self base_scorer_kwargs kw
     = Raise (ValueError [Lit "Labels must be in multi-label format."]))
  ∧ (Forall (Forall binary) (rows labels) → shape labels ≠ shape pred_probs →
     get_label_quality_scores labels pred_probs self base_scorer_kwargs kw
     = Raise (ValueError
         [Lit "Labels and predicted probabilities must have the same shape."])).
Proof.
  intros Hstrict Hself.
  unfold get_label_quality_scores, MultilabelScorer.__call__,
    MultilabelScorer._validate_labels_and_pred_probs.
  rewrite (positional_free "__call__" ["self"] kw)
    by (by intros p ->%list_elem_of_singleton).
  cbn [mbind result_bind].
  rewrite Hstrict. split.
  - intros Hbin. rewrite <-is_multilabel_binary in Hbin.
    apply not_true_is_false in Hbin. by rewrite Hbin.
  - intros Hbin Hshape. apply is_multilabel_binary in Hbin. rewrite Hbin.
    by rewrite bool_decide_eq_false_2.
Qed.

Lemma strict_scorer_validates_first_witness :
  let imports := with_self_confidence
                   (λ _ _, Ok []) (λ _ _, Ok []) (λ _ pred_probs, Ok pred_probs) in
  get_label_quality_scores (Array2 2 [[0; 2]]%Z) (Array2 2 [[frac 1 2; frac 1 2]])
    MultilabelScorer.default_instance None ∅
  = Raise (ValueError [Lit "Labels must be in multi-label format."])
  ∧ get_label_quality_scores (Array2 2 [[0; 1]]%Z) (Array2 1 [[frac 1 2]])
      MultilabelScorer.default_instance None ∅
    = Raise (ValueError
        [Lit "Labels and predicted probabilities must have the same shape."]).
Proof.
  intros imports. split.
  - apply (strict_scorer_validates_first MultilabelScorer.default_instance
             (Array2 2 [[0; 2]]%Z) (Array2 2 [[frac 1 2; frac 1 2]]) None ∅).
    + reflexivity.
    + reflexivity.
    + intros Hbin. apply is_multilabel_binary in Hbin. discriminate.
  - apply (strict_scorer_validates_first MultilabelScorer.default_instance
             (Array2 2 [[0; 1]]%Z) (Array2 1 [[frac 1 2]]) None ∅).
    + reflexivity.
    + reflexivity.
    + apply is_multilabel_binary. reflexivity.
    + discriminate.
Defined.

(** X13.  A scorer that is not strict reads as many columns of the
    probabilities as the labels have and ignores the others: dropping the
    surplus columns changes nothing, for every base scorer and
    aggregator. *)
Theorem surplus_probability_columns_ignored `{Imports} (self : MultilabelScorer.t)
    (labels : ndarray2 Z) (pred_probs : ndarray2 Qc)
    (base_scorer_kwargs : option (gmap string pyval)) (kw : gmap string pyval) :
  MultilabelScorer.strict self = false →
  (ncols labels ≤ ncols pred_probs)%nat →
  MultilabelScorer.__call__ self labels pred_probs base_scorer_kwargs kw
  = MultilabelScorer.__call__ self labels
      (take_columns 0 (seq 0 (ncols labels)) pred_probs) base_scorer_kwargs kw.
Proof.
  intros Hstrict HK. unfold MultilabelScorer.__call__. rewrite Hstrict.
  cbn [mbind result_bind].
  set (K := ncols labels) in *.
  assert (Hcut : rows (transpose 0 (take_columns 0 (seq 0 K) pred_probs))
                 = take K (rows (transpose 0 pred_probs))).
  { unfold transpose, take_columns. cbn [rows ncols].
    change (map ?f ?l) with (f <$> l).
    rewrite <-fmap_take, take_seq, length_seq.
    replace (K `min` ncols pred_probs)%nat with K by lia.
    apply list_fmap_ext. intros i j Hj. apply lookup_seq in Hj as [-> Hj].
    unfold column. change (map ?f ?l) with (f <$> l).
    rewrite <-list_fmap_compose. apply list_fmap_ext. intros _ r _.
    unfold compose. change (map ?f ?l) with (f <$> l).
    rewrite (nth_fmap_lt _ (seq 0 K) _ _ 0%nat) by (by rewrite length_seq).
    by rewrite seq_nth. }
  assert (Hlen : length (rows (transpose 0%Z labels)) = K).
  { unfold transpose. cbn [rows]. by rewrite length_map, length_seq. }
  assert (Hzip : zip (rows (transpose 0%Z labels))
                   (take K (rows (transpose 0 pred_probs)))
                 = zip (rows (transpose 0%Z labels))
                     (rows (transpose 0 pred_probs))).
  { apply zip_with_take_r'. rewrite Hlen. lia. }
  by rewrite Hcut, Hzip.
Qed.

Lemma surplus_probability_columns_ignored_witness :
  let imports := with_self_confidence
                   (λ _ _, Ok []) (λ _ _, Ok []) (λ _ pred_probs, Ok pred_probs) in
  let scorer := MultilabelScorer.Build ClassLabelScorer.SELF_CONFIDENCE
                  MultilabelScorer.default_aggregator false in
  MultilabelScorer.__call__ scorer (Array2 1 [[1]; [0]]%Z)
    (Array2 2 [[frac 9 10; frac 3 10]; [frac 2 10; frac 7 10]]) None ∅
  = MultilabelScorer.__call__ scorer (Array2 1 [[1]; [0]]%Z)
      (take_columns 0 (seq 0 1)
         (Array2 2 [[frac 9 10; frac 3 10]; [frac 2 10; frac 7 10]])) None ∅.
Proof.
  intros imports scorer.
  apply (surplus_probability_columns_ignored scorer (Array2 1 [[1]; [0]]%Z)
           (Array2 2 [[frac 9 10; frac 3 10]; [frac 2 10; frac 7 10]]) None ∅).
  - reflexivity.
  - simpl. lia.
Defined.

(** ** The range of the default scores *)

Lemma label_score_unit (l : Z) (p : Qc) :
  0 ≤ p → p ≤ 1 → 0 ≤ label_score l p ∧ label_score l p ≤ 1.
Proof.
  intros H0 H1. unfold label_score. destruct (decide (l = 0)%Z); [| done].
  split; apply Qc_le_of_sub.
  - replace (1 - p - 0) with (1 - p) by ring. by apply Qc_sub_nonneg.
  - replace (1 - (1 - p)) with (p - 0) by ring. by apply Qc_sub_nonneg.
Qed.

Lemma nth_unit (j : nat) (r : list Qc) :
  Forall (λ p, 0 ≤ p ∧ p ≤ 1) r → 0 ≤ nth j r 0 ∧ nth j r 0 ≤ 1.
Proof.
  intros Hr. destruct (decide (j < length r)%nat) as [Hj | Hj].
  - rewrite Forall_forall in Hr. by apply Hr, list_elem_of_In, nth_In.
  - rewrite nth_overflow by lia. done.
Qed.

(** X14.  On binary labels and probabilities of [0, 1] of the same shape,
    with at least one class, the default scorer returns one score for each
    example, and every score is in [0, 1]; under the self-confidence score
    of the documentation, and with any call-time keywords that do not
    clash with a positional parameter. *)
Theorem default_scores_in_unit_interval
    (normalized_margin entropy : list Z → ndarray2 Qc → result (list Qc))
    (adjuster : list Z → ndarray2 Qc → result (ndarray2 Qc))
    (labels : ndarray2 Z) (pred_probs : ndarray2 Qc) (kw : gmap string pyval) :
  let imports := with_self_confidence normalized_margin entropy adjuster in
  shape labels = shape pred_probs →
  Forall (Forall binary) (rows labels) →
  Forall (Forall (λ p, 0 ≤ p ∧ p ≤ 1)) (rows pred_probs) →
  (0 < ncols labels)%nat →
  (∀ p, p ∈ ["self"; "scores"; "s"] → kw !! p = None) →
  ∃ out,
    get_label_quality_scores labels pred_probs
      MultilabelScorer.default_instance None kw = Ok out
    ∧ length out = nrows labels
    ∧ Forall (λ x, 0 ≤ x ∧ x ≤ 1) out.
Proof.
  intros imports Hshape Hbin Hprob HK Hfree.
  apply is_multilabel_binary in Hbin.
  unfold get_label_quality_scores, imports.
  rewrite (positional_free "__call__" ["self"] kw)
    by (intros p ->%list_elem_of_singleton; apply Hfree; by left).
  cbn [mbind result_bind].
  change (with_self_confidence normalized_margin entropy adjuster)
    with (modelled_imports normalized_margin entropy adjuster).
  rewrite (default_call normalized_margin entropy adjuster _ _ kw Hshape Hbin).
  rewrite !positional_free
    by (intros p Hp; apply Hfree;
        repeat (apply elem_of_cons in Hp as [-> | Hp];
                [by repeat constructor |]);
        by apply elem_of_nil in Hp).
  cbn [mbind result_bind].
  set (s := class_scores labels pred_probs).
  assert (Hwf : wf s).
  { unfold wf, s, class_scores. cbn [rows ncols].
    apply Forall_fmap, Forall_forall. intros x _. unfold compose.
    by rewrite length_fmap, length_seq. }
  assert (Hcols : (0 < ncols s)%nat) by exact HK.
  rewrite (ema_rows s (PFloat (frac 8 10)) (frac 8 10)); try done.
  exists (ema_of_row (frac 8 10) <$> rows s). split; [done |].
  unfold shape, nrows in Hshape. injection Hshape as HN _.
  split.
  - unfold s, class_scores, nrows. cbn [rows].
    rewrite !length_fmap, length_zip_with. lia.
  - apply Forall_fmap.
    pose proof (wf_rows_nonempty s Hwf Hcols) as Hne.
    assert (Hunit : Forall (Forall (λ x, 0 ≤ x ∧ x ≤ 1)) (rows s)).
    { unfold s, class_scores. cbn [rows].
      apply Forall_fmap, Forall_forall. intros [l p] Hx. unfold compose.
      apply Forall_fmap, Forall_forall. intros j _. unfold compose, example_score.
      cbn [fst snd].
      apply elem_of_zip_r in Hx. rewrite Forall_forall in Hprob.
      destruct (nth_unit j p (Hprob p Hx)) as [H0 H1].
      by apply label_score_unit. }
    rewrite Forall_forall in Hne, Hunit. apply Forall_forall.
    intros row Hrow. unfold compose.
    apply ema_of_row_between; [done | done | by apply Hne | by apply Hunit].
Qed.

Lemma default_scores_in_unit_interval_witness :
  let imports := with_self_confidence
                   (λ _ _, Ok []) (λ _ _, Ok []) (λ _ pred_probs, Ok pred_probs) in
  ∃ out,
    get_label_quality_scores example_labels example_pred_probs
      MultilabelScorer.default_instance None ∅ = Ok out
    ∧ length out = nrows example_labels
    ∧ Forall (λ x, 0 ≤ x ∧ x ≤ 1) out.
Proof.
  apply (default_scores_in_unit_interval
           (λ _ _, Ok []) (λ _ _, Ok []) (λ _ pred_probs, Ok pred_probs)
           example_labels example_pred_probs ∅).
  - reflexivity.
  - apply is_multilabel_binary. reflexivity.
  - repeat constructor; discriminate.
  - simpl. lia.
  - intros p _. apply lookup_empty.
Defined.

(** ** Errors of the base scorer *)

Lemma score_class_entropy_adjust `{Imports} (self : MultilabelScorer.t)
    (base_scorer_kwargs : gmap string pyval) (scores : ndarray2 Qc)
    (item : nat * (list Z * list Qc)) :
  MultilabelScorer.base_scorer self = ClassLabelScorer.CONFIDENCE_WEIGHTED_ENTROPY →
  base_scorer_kwargs !! "adjust_pred_probs" = Some (PBool true) →
  (∀ p, p ∈ ["self"; "labels"; "pred_probs"] → base_scorer_kwargs !! p = None) →
  MultilabelScorer.score_class self base_scorer_kwargs scores item
  = Raise (ValueError
      [Lit "adjust_pred_probs is not currently supported for ";
       FVal (PStr "ClassLabelScorer.CONFIDENCE_WEIGHTED_ENTROPY"); Lit "."]).
Proof.
  intros Hbase Hadjust Hfree. destruct item as [i [label_i pred_prob_i]].
  unfold MultilabelScorer.score_class.
  rewrite (positional_free _ _ _ Hfree). cbn [mbind result_bind].
  unfold ClassLabelScorer.__call__, ClassLabelScorer._adjust_pred_probs.
  rewrite Hbase, Hadjust. cbn [default from_option id].
  by rewrite decide_True.
Qed.

(** X15.  A scorer whose base scorer is CONFIDENCE_WEIGHTED_ENTROPY, called
    with [adjust_pred_probs=True] among the keywords of the base scorer on
    valid input with at least one class, raises the error of the base
    scorer at the first class: whatever the score functions, the adjuster,
    the aggregator and its keywords are, as long as none of these is
    called [self], strict or not. *)
Theorem entropy_scorer_refuses_adjustment `{Imports} (self : MultilabelScorer.t)
    (labels : ndarray2 Z) (pred_probs : ndarray2 Qc)
    (base_scorer_kwargs kw : gmap string pyval) :
  MultilabelScorer.base_scorer self = ClassLabelScorer.CONFIDENCE_WEIGHTED_ENTROPY →
  base_scorer_kwargs !! "adjust_pred_probs" = Some (PBool true) →
  (∀ p, p ∈ ["self"; "labels"; "pred_probs"] → base_scorer_kwargs !! p = None) →
  shape labels = shape pred_probs →
  Forall (Forall binary) (rows labels) →
  (0 < ncols labels)%nat →
  kw !! "self" = None →
  get_label_quality_scores labels pred_probs self (Some base_scorer_kwargs) kw
  = Raise (ValueError
      [Lit "adjust_pred_probs is not currently supported for ";
       FVal (PStr "ClassLabelScorer.CONFIDENCE_WEIGHTED_ENTROPY"); Lit "."]).
Proof.
  intros Hbase Hadjust Hfree Hshape Hbin HK Hself.
  apply is_multilabel_binary in Hbin.
  unfold get_label_quality_scores, MultilabelScorer.__call__.
  rewrite (positional_free "__call__" ["self"] kw)
    by (by intros p ->%list_elem_of_singleton).
  cbn [mbind result_bind].
  assert (Hvalid : (if MultilabelScorer.strict self
                    then MultilabelScorer._validate_labels_and_pred_probs
                           labels pred_probs
                    else Ok ()) = Ok ()).
  { destruct (MultilabelScorer.strict self); [| done].
    unfold MultilabelScorer._validate_labels_and_pred_probs.
    by rewrite Hbin, Hshape, bool_decide_eq_true_2. }
  rewrite Hvalid. cbn [mbind result_bind default from_option id].
  unfold shape in Hshape. injection Hshape as _ HK'.
  unfold transpose. cbn [rows]. rewrite <-HK'.
  destruct (ncols labels) as [| k]; [lia |].
  cbn [seq map]. unfold enumerate. cbn [length seq zip_with for_loop].
  by rewrite score_class_entropy_adjust.
Qed.

Lemma entropy_scorer_refuses_adjustment_witness :
  let imports := with_self_confidence
                   (λ _ _, Ok []) (λ _ _, Ok []) (λ _ pred_probs, Ok pred_probs) in
  get_label_quality_scores example_labels example_pred_probs
    (MultilabelScorer.Build ClassLabelScorer.CONFIDENCE_WEIGHTED_ENTROPY
       MultilabelScorer.default_aggregator true)
    (Some {[ "adjust_pred_probs" := PBool true ]}) ∅
  = Raise (ValueError
      [Lit "adjust_pred_probs is not currently supported for ";
       FVal (PStr "ClassLabelScorer.CONFIDENCE_WEIGHTED_ENTROPY"); Lit "."]).
Proof.
  intros imports.
  apply (entropy_scorer_refuses_adjustment
           (MultilabelScorer.Build ClassLabelScorer.CONFIDENCE_WEIGHTED_ENTROPY
              MultilabelScorer.default_aggregator true)
           example_labels example_pred_probs
           {[ "adjust_pred_probs" := PBool true ]} ∅).
  - reflexivity.
  - reflexivity.
  - intros p Hp. apply lookup_singleton_ne. intros <-.
    repeat (apply elem_of_cons in Hp as [Hp | Hp]; [discriminate |]).
    by apply elem_of_nil in Hp.
  - reflexivity.
  - apply is_multilabel_binary. reflexivity.
  - simpl. lia.
  - reflexivity.
Defined.

(** ** Names of the variants *)

(** X16.  [from_str] reads the name of every variant back, in upper and
    in lower case, but not the text [str] prints for it, which carries
    the name of the class. *)
Theorem from_str_reads_names (v : ClassLabelScorer.t) :
  ClassLabelScorer.from_str (ClassLabelScorer.name v) = Ok v
  ∧ ClassLabelScorer.from_str (lower (ClassLabelScorer.name v)) = Ok v
  ∧ ClassLabelScorer.from_str (ClassLabelScorer.str v)
    = Raise (ValueError [Lit "Invalid method name: ";
                         FVal (PStr (ClassLabelScorer.str v))]).
Proof. by destruct v. Qed.

(** ** The prior and the order of the examples *)

Lemma count_row_Permutation (rs1 rs2 : list (list Z)) (r : list Z) :
  rs1 ≡ₚ rs2 → count_row rs1 r = count_row rs2 r.
Proof. intros Hperm. unfold count_row. by rewrite Hperm. Qed.

Lemma np_unique_Permutation (y1 y2 : ndarray2 Z) :
  rows y1 ≡ₚ rows y2 → np_unique y1 = np_unique y2.
Proof.
  intros Hperm. unfold np_unique.
  assert (Hsame : merge_sort lex (remove_dups (rows y1))
                  = merge_sort lex (remove_dups (rows y2))).
  { apply (Sorted_unique lex).
    - apply Sorted_merge_sort. apply _.
    - apply Sorted_merge_sort. apply _.
    - rewrite !merge_sort_Permutation.
      apply NoDup_Permutation; [apply NoDup_remove_dups .. |].
      intros r. by rewrite !elem_of_remove_dups, Hperm. }
  rewrite Hsame. f_equal.
  apply list_fmap_ext. intros _ r _. by apply count_row_Permutation.
Qed.

(** X17.  The prior does not depend on the order of the examples: label
    arrays with the same rows in another order give the same result,
    returned or raised. *)
Theorem multilabel_py_order_of_examples
    (list_of_set : list (list Z) → list (list Z)) (y1 y2 : ndarray2 Z) :
  ncols y1 = ncols y2 → rows y1 ≡ₚ rows y2 →
  multilabel_py list_of_set y1 = multilabel_py list_of_set y2.
Proof.
  intros HK Hperm.
  assert (HN : nrows y1 = nrows y2) by (unfold nrows; by rewrite Hperm).
  unfold multilabel_py.
  by rewrite (np_unique_Permutation y1 y2 Hperm), HK, HN.
Qed.

Lemma multilabel_py_order_of_examples_witness :
  multilabel_py reverse (Array2 2 [[0; 1]; [1; 1]; [0; 1]]%Z)
  = multilabel_py reverse (Array2 2 [[1; 1]; [0; 1]; [0; 1]]%Z).
Proof.
  apply (multilabel_py_order_of_examples reverse
           (Array2 2 [[0; 1]; [1; 1]; [0; 1]]%Z)
           (Array2 2 [[1; 1]; [0; 1]; [0; 1]]%Z)).
  - reflexivity.
  - apply perm_swap.
Defined.

(** ** The classes of the cross-validation *)

Lemma np_unique_length_bound (y : ndarray2 Z) :
  wf y → Forall (Forall binary) (rows y) →
  (length (np_unique y).1 ≤ 2 ^ ncols y)%nat.
Proof.
  intros Hwf Hbin. rewrite <-product01_length.
  apply submseteq_length, NoDup_submseteq; [apply np_unique_NoDup |].
  intros r Hr%np_unique_elem_of. apply elem_of_product01.
  - unfold wf in Hwf. rewrite Forall_forall in Hwf. by apply Hwf.
  - rewrite Forall_forall in Hbin. by apply Hbin.
Qed.

(** X18.  [get_cross_validated_multilabel_pred_probs] always reaches
    [cross_val_predict], with the features and the labels it was given
    and with the splits of the class ids; on binary labels of [K] columns
    the ids are one for each example and below [2 ** K], the number of
    configurations. *)
Theorem cross_validation_up_to_2K_classes
    {Features Classifier Splits Predictions : Type}
    (split : list nat → list nat → Splits)
    (cross_val_predict : Classifier → Features → ndarray2 Z → Splits → Predictions)
    (X : Features) (labels : ndarray2 Z) (clf : Classifier) :
  wf labels → Forall (Forall binary) (rows labels) →
  ∃ ids,
    get_cross_validated_multilabel_pred_probs split cross_val_predict X labels clf
    = Some (cross_val_predict clf X labels (split ids ids))
    ∧ length ids = nrows labels
    ∧ Forall (λ id, id < 2 ^ ncols labels)%nat ids.
Proof.
  intros Hwf Hbin.
  destruct (multilabel_ids_spec labels) as (ids & Hids & Hall).
  exists ids.
  unfold get_cross_validated_multilabel_pred_probs, _get_split_generator.
  rewrite Hids. split; [done |].
  split; [symmetry; by eapply Forall2_length |].
  pose proof (np_unique_length_bound labels Hwf Hbin) as Hbound.
  apply Forall_forall. intros id [i Hi]%list_elem_of_lookup_1.
  destruct (Forall2_lookup_r _ _ _ _ _ Hall Hi) as (row & _ & Hrow).
  cbv beta in Hrow. apply lookup_lt_Some in Hrow. lia.
Qed.

Lemma cross_validation_up_to_2K_classes_witness :
  ∃ ids,
    get_cross_validated_multilabel_pred_probs
      (λ X y : list nat, (X, y))
      (λ (clf : unit) (X : list Qc) (labels : ndarray2 Z)
         (splits : list nat * list nat), (labels, splits))
      [frac 1 2; frac 1 3] example_labels ()
    = Some (example_labels, (ids, ids))
    ∧ length ids = nrows example_labels
    ∧ Forall (λ id, id < 2 ^ ncols example_labels)%nat ids.
Proof.
  apply (cross_validation_up_to_2K_classes
           (λ X y : list nat, (X, y))
           (λ (clf : unit) (X : list Qc) (labels : ndarray2 Z)
              (splits : list nat * list nat), (labels, splits))
           [frac 1 2; frac 1 3] example_labels ()).
  - repeat constructor.
  - apply is_multilabel_binary. reflexivity.
Defined.

(** ** The keywords of the base scorer *)

(** X19.  Only [adjust_pred_probs=True] itself changes what a base scorer
    does: with the keyword absent, [False], or a value other than the
    boolean (the integer 1 too), every variant scores the probabilities
    as given, the adjuster is not consulted and no other keyword is
    read. *)
Theorem only_true_adjusts `{Imports} (self : ClassLabelScorer.t)
    (labels : list Z) (pred_probs : ndarray2 Qc) (kwargs : gmap string pyval) :
  kwargs !! "adjust_pred_probs" ≠ Some (PBool true) →
  ClassLabelScorer._adjust_pred_probs self labels pred_probs kwargs = Ok pred_probs
  ∧ ClassLabelScorer.__call__ self labels pred_probs kwargs
    = ClassLabelScorer.value self labels pred_probs.
Proof.
  intros Hkw.
  assert (Hsame : ClassLabelScorer._adjust_pred_probs self labels pred_probs kwargs
                  = Ok pred_probs).
  { unfold ClassLabelScorer._adjust_pred_probs.
    destruct (kwargs !! "adjust_pred_probs") as [[| [|] | | |] |]; done. }
  split; [exact Hsame |].
  unfold ClassLabelScorer.__call__. by rewrite Hsame.
Qed.

Lemma only_true_adjusts_witness :
  let imports := with_self_confidence
                   (λ _ _, Ok []) (λ _ _, Ok [])
                   (λ _ _, Raise (ValueError [Lit "adjusted"])) in
  ClassLabelScorer._adjust_pred_probs ClassLabelScorer.CONFIDENCE_WEIGHTED_ENTROPY
    [1%Z] (Array2 2 [[frac 1 10; frac 9 10]]) {[ "adjust_pred_probs" := PInt 1 ]}
  = Ok (Array2 2 [[frac 1 10; frac 9 10]])
  ∧ ClassLabelScorer.__call__ ClassLabelScorer.CONFIDENCE_WEIGHTED_ENTROPY
      [1%Z] (Array2 2 [[frac 1 10; frac 9 10]]) {[ "adjust_pred_probs" := PInt 1 ]}
    = ClassLabelScorer.value ClassLabelScorer.CONFIDENCE_WEIGHTED_ENTROPY
        [1%Z] (Array2 2 [[frac 1 10; frac 9 10]]).
Proof.
  intros imports.
  apply (only_true_adjusts ClassLabelScorer.CONFIDENCE_WEIGHTED_ENTROPY
           [1%Z] (Array2 2 [[frac 1 10; frac 9 10]])
           {[ "adjust_pred_probs" := PInt 1 ]}).
  discriminate.
Defined.

(** ** The moving average as a function of the scores *)

(** Sorting one more score is inserting it into the sorted others. *)
Lemma sort_descending_cons (x : Qc) (row : list Qc) :
  sort_descending (x :: row) = list_merge (flip Qcle) [x] (sort_descending row).
Proof.
  apply (Sorted_unique (flip Qcle)).
  - unfold sort_descending. apply Sorted_merge_sort. apply _.
  - apply Sorted_list_merge; [apply _ | by repeat constructor |].
    unfold sort_descending. apply Sorted_merge_sort. apply _.
  - rewrite merge_Permutation. unfold sort_descending.
    by rewrite !merge_sort_Permutation.
Qed.

Lemma insert_descending_cons (x a : Qc) (l : list Qc) :
  list_merge (flip Qcle) [x] (a :: l)
  = if decide (a ≤ x) then x :: a :: l
    else a :: list_merge (flip Qcle) [x] l.
Proof.
  rewrite list_merge_cons. unfold flip.
  destruct (decide (a ≤ x)); [| done]. by rewrite list_merge_nil_l.
Qed.

Lemma Qc_not_le_le (x y : Qc) : ¬ x ≤ y → y ≤ x.
Proof. intros Hn. apply Qclt_le_weak. by apply Qcnot_le_lt. Qed.

Lemma cons_below_insert (l1 l2 : list Qc) :
  Forall2 Qcle l1 l2 →
  ∀ a y, a ≤ y → StronglySorted (flip Qcle) (a :: l1) →
         Forall2 Qcle (a :: l1) (list_merge (flip Qcle) [y] l2).
Proof.
  induction 1 as [| a' c l1 l2 Hac Hall IH]; intros a y Hay Hsorted.
  - rewrite list_merge_nil_r. constructor; [done | constructor].
  - rewrite insert_descending_cons.
    apply StronglySorted_inv in Hsorted as [Hrest Hbelow].
    apply Forall_cons in Hbelow as [Ha'a _]. unfold flip in Ha'a.
    destruct (decide (c ≤ y)) as [Hcy | Hcy].
    + constructor; [done |]. by constructor.
    + apply Qc_not_le_le in Hcy. constructor; [by eapply Qcle_trans |].
      apply IH; [by eapply Qcle_trans | done].
Qed.

Lemma insert_below_cons (l1 l2 : list Qc) :
  Forall2 Qcle l1 l2 →
  ∀ x b, x ≤ b → StronglySorted (flip Qcle) (b :: l2) →
         Forall2 Qcle (list_merge (flip Qcle) [x] l1) (b :: l2).
Proof.
  induction 1 as [| a' c l1 l2 Hac Hall IH]; intros x b Hxb Hsorted.
  - rewrite list_merge_nil_r. constructor; [done | constructor].
  - rewrite insert_descending_cons.
    apply StronglySorted_inv in Hsorted as [Hrest Hbelow].
    apply Forall_cons in Hbelow as [Hcb _]. unfold flip in Hcb.
    destruct (decide (a' ≤ x)) as [Hax | Hax].
    + constructor; [done |]. by constructor.
    + apply Qc_not_le_le in Hax. constructor; [by eapply Qcle_trans |].
      apply IH; [by eapply Qcle_trans | done].
Qed.

Lemma insert_descending_monotone (l1 l2 : list Qc) :
  Forall2 Qcle l1 l2 →
  ∀ x y, x ≤ y →
         StronglySorted (flip Qcle) l1 → StronglySorted (flip Qcle) l2 →
         Forall2 Qcle (list_merge (flip Qcle) [x] l1)
           (list_merge (flip Qcle) [y] l2).
Proof.
  induction 1 as [| a b l1 l2 Hab Hall IH]; intros x y Hxy Hs1 Hs2.
  - rewrite !list_merge_nil_r. constructor; [done | constructor].
  - rewrite !insert_descending_cons.
    destruct (decide (a ≤ x)) as [Hax | Hax], (decide (b ≤ y)) as [Hby | Hby].
    + constructor; [done |]. by constructor.
    + apply Qc_not_le_le in Hby. constructor; [by eapply Qcle_trans |].
      apply cons_below_insert; [done | by eapply Qcle_trans | done].
    + apply Qc_not_le_le in Hax.
      constructor; [by eapply Qcle_trans |].
      apply insert_below_cons; [done | by eapply Qcle_trans | done].
    + constructor; [done |].
      apply StronglySorted_inv in Hs1 as [Hs1 _].
      apply StronglySorted_inv in Hs2 as [Hs2 _].
      by apply IH.
Qed.

(** Larger scores sort to larger scores, rank by rank. *)
Lemma sort_descending_monotone (r1 r2 : list Qc) :
  Forall2 Qcle r1 r2 → Forall2 Qcle (sort_descending r1) (sort_descending r2).
Proof.
  induction 1 as [| x y r1 r2 Hxy _ IH]; [by constructor |].
  rewrite !sort_descending_cons.
  apply insert_descending_monotone; [done | done | apply sort_descending_sorted ..].
Qed.

Lemma running_average_monotone (a e1 e2 x1 x2 : Qc) :
  0 ≤ a → a ≤ 1 → e1 ≤ e2 → x1 ≤ x2 →
  running_average a e1 x1 ≤ running_average a e2 x2.
Proof.
  intros H0 H1 He Hx. unfold running_average.
  apply Qc_sub_nonneg in H1, He, Hx. apply Qc_le_of_sub.
  replace (a * x2 + (1 - a) * e2 - (a * x1 + (1 - a) * e1))
    with (a * (x2 - x1) + (1 - a) * (e2 - e1)) by ring.
  by apply Qc_add_nonneg; apply Qc_mul_nonneg.
Qed.

Lemma fold_running_average_monotone (a : Qc) (l1 l2 : list Qc) :
  0 ≤ a → a ≤ 1 → Forall2 Qcle l1 l2 →
  ∀ e1 e2, e1 ≤ e2 →
           fold_left (running_average a) l1 e1
           ≤ fold_left (running_average a) l2 e2.
Proof.
  intros H0 H1. induction 1 as [| x1 x2 l1 l2 Hx _ IH]; intros e1 e2 He; [done |].
  cbn [fold_left]. apply IH. by apply running_average_monotone.
Qed.

Lemma ema_of_row_monotone (a : Qc) (r1 r2 : list Qc) :
  0 ≤ a → a ≤ 1 → Forall2 Qcle r1 r2 → ema_of_row a r1 ≤ ema_of_row a r2.
Proof.
  intros H0 H1 Hrows. unfold ema_of_row.
  destruct (sort_descending_monotone r1 r2 Hrows)
    as [| x1 x2 l1 l2 Hx Hl]; [apply Qcle_refl |].
  by apply fold_running_average_monotone.
Qed.

(** X20.  The moving average is monotone in the scores: when every score
    of an array is at most the score at the same place of another, every
    row of the first gets at most the moving average of that row of the
    second; for every alpha that passes the range check, none included. *)
Theorem ema_monotone_in_scores (s1 s2 : ndarray2 Qc) (alpha : pyval) :
  wf s1 → wf s2 → ncols s1 = ncols s2 → (0 < ncols s1)%nat →
  valid_alpha alpha →
  Forall2 (Forall2 Qcle) (rows s1) (rows s2) →
  ∃ out1 out2,
    exponential_moving_average s1 alpha (PInt 1) = Ok out1
    ∧ exponential_moving_average s2 alpha (PInt 1) = Ok out2
    ∧ Forall2 Qcle out1 out2.
Proof.
  intros Hwf1 Hwf2 HK Hcols Halpha Hrows.
  assert (Hcols2 : (0 < ncols s2)%nat) by lia.
  assert (Ha : ∃ a, 0 ≤ a ∧ a ≤ 1
                 ∧ exponential_moving_average s1 alpha (PInt 1)
                   = Ok (ema_of_row a <$> rows s1)
                 ∧ exponential_moving_average s2 alpha (PInt 1)
                   = Ok (ema_of_row a <$> rows s2)).
  { destruct Halpha as [-> | (a & Hnum & H0 & H1)].
    - exists (default_alpha (ncols s1)).
      destruct (default_alpha_valid (ncols s1) Hcols) as [H0 H1].
      rewrite (ema_rows_default s1), (ema_rows_default s2) by done.
      by rewrite <-HK.
    - exists a. by rewrite (ema_rows s1 alpha a), (ema_rows s2 alpha a). }
  destruct Ha as (a & H0 & H1 & Hema1 & Hema2).
  exists (ema_of_row a <$> rows s1), (ema_of_row a <$> rows s2).
  split; [done |]. split; [done |].
  apply Forall2_fmap. eapply Forall2_impl; [exact Hrows |].
  intros r1 r2 Hr. by apply ema_of_row_monotone.
Qed.

Lemma ema_monotone_in_scores_witness :
  ∃ out1 out2,
    exponential_moving_average
      (Array2 2 [[frac 1 10; frac 2 10]]) PNone (PInt 1) = Ok out1
    ∧ exponential_moving_average
        (Array2 2 [[frac 3 10; frac 2 10]]) PNone (PInt 1) = Ok out2
    ∧ Forall2 Qcle out1 out2.
Proof.
  apply (ema_monotone_in_scores
           (Array2 2 [[frac 1 10; frac 2 10]])
           (Array2 2 [[frac 3 10; frac 2 10]]) PNone).
  - repeat constructor.
  - repeat constructor.
  - reflexivity.
  - simpl. lia.
  - by left.
  - repeat constructor; discriminate.
Defined.
